(** * SimpleOS: memory allocator, process table, scheduler and file table

    A shallow embedding of [src/Claude/SimpleOS/main.c].  The single global
    [simple_os] becomes a record that every operation takes and returns;
    fixed-size C arrays are lists read with [!!] and written with
    [<[i:=x]>] / [alter]; the unsigned fields are [Z] with the wrap-around
    written where the C arithmetic can wrap. *)

From Stdlib Require Import ZArith Ascii Lia.
From stdpp Require Import base tactics option list strings.

Local Open Scope Z_scope.

(** ** Constants *)

Definition MAX_PROCESSES : Z := 16.
Definition MAX_FILES : Z := 32.
Definition MAX_FILENAME_LEN : Z := 32.
Definition MEMORY_SIZE : Z := 65536.
Definition PROCESS_MEMORY_SIZE : Z := 4096.

(** [MEMORY_SIZE / PROCESS_MEMORY_SIZE], the length of [memory_map]. *)
Definition NUM_BLOCKS : Z := MEMORY_SIZE / PROCESS_MEMORY_SIZE.

Definition uint8 (z : Z) : Z := z mod 256.
Definition uint16 (z : Z) : Z := z mod 65536.

(** ** Data structures *)

Inductive ProcessState : Set :=
| PROCESS_READY
| PROCESS_RUNNING
| PROCESS_BLOCKED
| PROCESS_TERMINATED.

#[global] Instance ProcessState_eq_dec : EqDecision ProcessState.
Proof. solve_decision. Defined.

Definition state_eqb (a b : ProcessState) : bool :=
  match a, b with
  | PROCESS_READY, PROCESS_READY
  | PROCESS_RUNNING, PROCESS_RUNNING
  | PROCESS_BLOCKED, PROCESS_BLOCKED
  | PROCESS_TERMINATED, PROCESS_TERMINATED => true
  | _, _ => false
  end.

(** Process control block.  [name] is the 32-byte buffer [char name[32]]. *)
Record Process : Set := mkProcess {
  id : Z;
  state : ProcessState;
  memory_start : Z;
  memory_size : Z;
  program_counter : Z;
  name : list ascii
}.

(** File system entry.  [filename] is [char filename[MAX_FILENAME_LEN]]. *)
Record FileEntry : Set := mkFileEntry {
  filename : list ascii;
  start_block : Z;
  size : Z;
  in_use : bool
}.

(** The OS state.  The byte buffer [memory[MEMORY_SIZE]] is declared in the
    source but no function reads or writes it, so it carries no field. *)
Record OS : Set := mkOS {
  memory_map : list bool;
  processes : list Process;
  current_process : Z;
  process_count : Z;
  file_table : list FileEntry;
  system_running : bool
}.

Definition set_memory_map (f : list bool → list bool) (s : OS) : OS :=
  mkOS (f (memory_map s)) (processes s) (current_process s)
       (process_count s) (file_table s) (system_running s).

Definition set_processes (f : list Process → list Process) (s : OS) : OS :=
  mkOS (memory_map s) (f (processes s)) (current_process s)
       (process_count s) (file_table s) (system_running s).

Definition set_current_process (c : Z) (s : OS) : OS :=
  mkOS (memory_map s) (processes s) c
       (process_count s) (file_table s) (system_running s).

Definition set_process_count (c : Z) (s : OS) : OS :=
  mkOS (memory_map s) (processes s) (current_process s)
       c (file_table s) (system_running s).

Definition set_file_table (f : list FileEntry → list FileEntry) (s : OS) : OS :=
  mkOS (memory_map s) (processes s) (current_process s)
       (process_count s) (f (file_table s)) (system_running s).

Definition set_system_running (b : bool) (s : OS) : OS :=
  mkOS (memory_map s) (processes s) (current_process s)
       (process_count s) (file_table s) b.

Definition set_state (st : ProcessState) (p : Process) : Process :=
  mkProcess (id p) st (memory_start p) (memory_size p) (program_counter p) (name p).

Definition set_in_use (b : bool) (f : FileEntry) : FileEntry :=
  mkFileEntry (filename f) (start_block f) (size f) b.

(** ** C strings

    A [const char*] argument is a list of characters; the terminator is
    implicit, so reading at or past the end of the list yields NUL, and a
    NUL inside the list ends the string there as it does in C. *)

Definition NUL : ascii := Ascii.zero.

Definition char_at (s : list ascii) (i : nat) : ascii := default NUL (s !! i).

Definition is_nul (c : ascii) : bool := Ascii.eqb c NUL.

(** A string literal as a C string argument. *)
Definition chars (s : string) : list ascii := String.list_ascii_of_string s.

(** [i = 0; while (src[i] != '\0' && i < limit) { dst[i] = src[i]; i++; }
    dst[i] = '\0';]  The fuel is [limit - i]. *)
Fixpoint copy_loop (fuel i : nat) (src dst : list ascii) : list ascii :=
  match fuel with
  | O => <[i := NUL]> dst
  | S fuel' =>
      if is_nul (char_at src i) then <[i := NUL]> dst
      else copy_loop fuel' (S i) src (<[i := char_at src i]> dst)
  end.

Definition copy_name (limit : nat) (src dst : list ascii) : list ascii :=
  copy_loop limit 0 src dst.

(** The comparison loop shared by [fs_create] and [fs_delete]:
    [match = true; for (j = 0; j < MAX_FILENAME_LEN; j++) {
       if (stored[j] != arg[j]) { match = false; break; }
       if (arg[j] == '\0') break; }]  The fuel is [MAX_FILENAME_LEN - j]. *)
Fixpoint match_loop (fuel j : nat) (stored arg : list ascii) : bool :=
  match fuel with
  | O => true
  | S fuel' =>
      if negb (Ascii.eqb (char_at stored j) (char_at arg j)) then false
      else if is_nul (char_at arg j) then true
      else match_loop fuel' (S j) stored arg
  end.

Definition name_match (stored arg : list ascii) : bool :=
  match_loop (Z.to_nat MAX_FILENAME_LEN) 0 stored arg.

(** ** Linear scans

    [for (i = start; i < start + n; i++) if (P i) return i;] — the shape of
    every table scan in the source.  The tests on a table entry
    ([block_free], [has_state], [slot_free], [slot_matches] below) read the
    list with [!!]; a read outside the table, which no call makes in a
    well-formed state, tests false. *)
Fixpoint first_index (P : nat → bool) (n i : nat) : option nat :=
  match n with
  | O => None
  | S n' => if P i then Some i else first_index P n' (S i)
  end.

(** ** Memory management *)

Definition block_free (m : list bool) (i : nat) : bool :=
  match m !! i with
  | Some b => negb b
  | None => false
  end.

Definition memory_init (s : OS) : OS :=
  set_memory_map (λ _, replicate (Z.to_nat NUM_BLOCKS) false) s.

(** Returns the start address, or [0xFFFF] when no block is free. *)
Definition memory_allocate (s : OS) : Z * OS :=
  match first_index (block_free (memory_map s)) (Z.to_nat NUM_BLOCKS) 0 with
  | Some i =>
      (uint16 (Z.of_nat i * PROCESS_MEMORY_SIZE),
       set_memory_map (λ m, <[i := true]> m) s)
  | None => (0xFFFF, s)
  end.

Definition memory_free (start_address : Z) (s : OS) : OS :=
  let block := start_address / PROCESS_MEMORY_SIZE in
  if block <? NUM_BLOCKS
  then set_memory_map (λ m, <[Z.to_nat block := false]> m) s
  else s.

(** ** Process management *)

Definition has_state (st : ProcessState) (ps : list Process) (i : nat) : bool :=
  match ps !! i with
  | Some p => state_eqb (state p) st
  | None => false
  end.

Definition process_init (s : OS) : OS :=
  set_processes
    (λ ps, (set_state PROCESS_TERMINATED <$> take (Z.to_nat MAX_PROCESSES) ps) ++
           drop (Z.to_nat MAX_PROCESSES) ps)
    (set_current_process 0 (set_process_count 0 s)).

(** The three failing [return 0xFF] statements of [process_create], in
    source order, under the names their comments give them. *)
Inductive create_error : Set :=
| MaxProcessesReached
| NoFreeSlot
| OutOfMemory.

Inductive create_result : Set :=
| Created (pid : Z)
| CreateFailed (e : create_error).

(** The [uint8_t] that the C function returns. *)
Definition create_code (r : create_result) : Z :=
  match r with
  | Created pid => pid
  | CreateFailed _ => 0xFF
  end.

(** The assignments of [process_create] to the chosen slot [*p]. *)
Definition setup_process (pid mem_start : Z) (nm : list ascii) (p : Process) : Process :=
  mkProcess pid PROCESS_READY mem_start PROCESS_MEMORY_SIZE 0
            (copy_name 31 nm (name p)).

Definition process_create (nm : list ascii) (s : OS) : create_result * OS :=
  if process_count s >=? MAX_PROCESSES then (CreateFailed MaxProcessesReached, s)
  else
    match first_index (has_state PROCESS_TERMINATED (processes s))
                      (Z.to_nat MAX_PROCESSES) 0 with
    | None => (CreateFailed NoFreeSlot, s)
    | Some pid =>
        let '(mem_start, s1) := memory_allocate s in
        if mem_start =? 0xFFFF then (CreateFailed OutOfMemory, s1)
        else
          let s2 := set_processes
                      (alter (setup_process (Z.of_nat pid) mem_start nm) pid) s1 in
          (Created (Z.of_nat pid),
           set_process_count (uint8 (process_count s2 + 1)) s2)
    end.

Definition process_terminate (pid : Z) (s : OS) : OS :=
  if (pid >=? MAX_PROCESSES) || has_state PROCESS_TERMINATED (processes s) (Z.to_nat pid)
  then s
  else
    let s1 := match processes s !! Z.to_nat pid with
              | Some p => memory_free (memory_start p) s
              | None => s
              end in
    let s2 := set_processes (alter (set_state PROCESS_TERMINATED) (Z.to_nat pid)) s1 in
    set_process_count (uint8 (process_count s2 - 1)) s2.

(** What [process_schedule] does once it has found a ready slot: the
    current process goes back to ready if it was running, and the slot
    found becomes the running, current one. *)
Definition switch_to (next_process : Z) (s : OS) : OS :=
  let cur := Z.to_nat (current_process s) in
  let s1 := if has_state PROCESS_RUNNING (processes s) cur
            then set_processes (alter (set_state PROCESS_READY) cur) s
            else s in
  set_processes (alter (set_state PROCESS_RUNNING) (Z.to_nat next_process))
                (set_current_process next_process s1).

(** The [while (next_process != current_process)] loop.  [None] is the
    loop still running when the fuel is spent. *)
Fixpoint schedule_loop (fuel : nat) (next_process : Z) (s : OS) : option OS :=
  match fuel with
  | O => None
  | S fuel' =>
      if next_process =? current_process s then Some s
      else if has_state PROCESS_READY (processes s) (Z.to_nat next_process)
      then Some (switch_to next_process s)
      else schedule_loop fuel' ((next_process + 1) mod MAX_PROCESSES) s
  end.

(** With [current_process < MAX_PROCESSES] the loop condition is evaluated
    at most [MAX_PROCESSES] times (see [process_schedule_total]). *)
Definition process_schedule (s : OS) : option OS :=
  if process_count s =? 0 then Some s
  else schedule_loop (Z.to_nat MAX_PROCESSES)
                     ((current_process s + 1) mod MAX_PROCESSES) s.

(** ** File system *)

Definition slot_free (ft : list FileEntry) (i : nat) : bool :=
  match ft !! i with
  | Some f => negb (in_use f)
  | None => false
  end.

Definition slot_matches (arg : list ascii) (ft : list FileEntry) (i : nat) : bool :=
  match ft !! i with
  | Some f => in_use f && name_match (filename f) arg
  | None => false
  end.

Definition fs_init (s : OS) : OS :=
  set_file_table
    (λ ft, (set_in_use false <$> take (Z.to_nat MAX_FILES) ft) ++
           drop (Z.to_nat MAX_FILES) ft) s.

(** The assignments of [fs_create] to the chosen entry [*file]. *)
Definition setup_file (arg : list ascii) (f : FileEntry) : FileEntry :=
  mkFileEntry (copy_name (Z.to_nat (MAX_FILENAME_LEN - 1)) arg (filename f)) 0 0 true.

(** Returns the file id, [-1] (no free file slots) or [-2] (file already
    exists). *)
Definition fs_create (arg : list ascii) (s : OS) : Z * OS :=
  match first_index (slot_free (file_table s)) (Z.to_nat MAX_FILES) 0 with
  | None => (-1, s)
  | Some file_id =>
      match first_index (slot_matches arg (file_table s)) (Z.to_nat MAX_FILES) 0 with
      | Some _ => (-2, s)
      | None =>
          (Z.of_nat file_id, set_file_table (alter (setup_file arg) file_id) s)
      end
  end.

Definition fs_delete (arg : list ascii) (s : OS) : bool * OS :=
  match first_index (slot_matches arg (file_table s)) (Z.to_nat MAX_FILES) 0 with
  | Some i => (true, set_file_table (alter (set_in_use false) i) s)
  | None => (false, s)
  end.

(** ** System initialisation *)

Definition zero_process : Process :=
  mkProcess 0 PROCESS_READY 0 0 0 (replicate 32 NUL).

Definition zero_file : FileEntry :=
  mkFileEntry (replicate (Z.to_nat MAX_FILENAME_LEN) NUL) 0 0 false.

(** The global [simple_os] before [main] runs: static storage, all zero
    (so every process slot reads [PROCESS_READY], the enumerator 0). *)
Definition zero_os : OS :=
  mkOS (replicate (Z.to_nat NUM_BLOCKS) false)
       (replicate (Z.to_nat MAX_PROCESSES) zero_process)
       0 0
       (replicate (Z.to_nat MAX_FILES) zero_file)
       false.

Definition os_init (s : OS) : OS :=
  set_system_running true (fs_init (process_init (memory_init s))).

(** The initialised system. *)
Definition initial_os : OS := os_init zero_os.

(** ** Well-formed states

    What the C types give for free: the array sizes and the range of the
    16-bit [memory_start] field ([MEMORY_SIZE] is 2^16). *)
Definition wf (s : OS) : Prop :=
  length (memory_map s) = Z.to_nat NUM_BLOCKS ∧
  length (processes s) = Z.to_nat MAX_PROCESSES ∧
  length (file_table s) = Z.to_nat MAX_FILES ∧
  Forall (λ p, 0 ≤ memory_start p < MEMORY_SIZE ∧ length (name p) = 32%nat)
         (processes s) ∧
  Forall (λ f, length (filename f) = Z.to_nat MAX_FILENAME_LEN) (file_table s).

#[global] Instance wf_dec s : Decision (wf s).
Proof. unfold wf. apply _. Defined.

(** ** Predicates used in the statements *)

(** [i] is the lowest-index free block of the bitmap [m]. *)
Definition lowest_free (m : list bool) (i : nat) : Prop :=
  m !! i = Some false ∧ ∀ j, (j < i)%nat → m !! j = Some true.

(** [off] is the start address of an in-range block that is marked used. *)
Definition used_block_boundary (s : OS) (off : Z) : Prop :=
  off mod PROCESS_MEMORY_SIZE = 0 ∧
  0 ≤ off / PROCESS_MEMORY_SIZE < NUM_BLOCKS ∧
  memory_map s !! Z.to_nat (off / PROCESS_MEMORY_SIZE) = Some true.

(** A slot is live when its state is not [PROCESS_TERMINATED]. *)
Definition is_live (p : Process) : bool :=
  negb (state_eqb (state p) PROCESS_TERMINATED).

Fixpoint live_count (ps : list Process) : Z :=
  match ps with
  | [] => 0
  | p :: ps' => (if is_live p then 1 else 0) + live_count ps'
  end.

(** The stored count agrees with the table. *)
Definition count_ok (s : OS) : Prop :=
  process_count s = live_count (processes s).

(** The table-full failures: the first two failing returns of
    [process_create]. *)
Definition table_full (e : create_error) : Prop :=
  e = MaxProcessesReached ∨ e = NoFreeSlot.

(** ** Operation sequences

    The calls the dispatcher can make on the core.  Arguments are converted
    to the parameter types ([uint16_t], [uint8_t]) as a C call does. *)
Inductive op : Set :=
| OpAllocate
| OpFree (start_address : Z)
| OpProcessCreate (nm : list ascii)
| OpProcessTerminate (pid : Z)
| OpSchedule
| OpFsCreate (arg : list ascii)
| OpFsDelete (arg : list ascii).

Definition exec (o : op) (s : OS) : option OS :=
  match o with
  | OpAllocate => Some (memory_allocate s).2
  | OpFree a => Some (memory_free (uint16 a) s)
  | OpProcessCreate nm => Some (process_create nm s).2
  | OpProcessTerminate pid => Some (process_terminate (uint8 pid) s)
  | OpSchedule => process_schedule s
  | OpFsCreate arg => Some (fs_create arg s).2
  | OpFsDelete arg => Some (fs_delete arg s).2
  end.

Fixpoint run (ops : list op) (s : OS) : option OS :=
  match ops with
  | [] => Some s
  | o :: ops' =>
      match exec o s with
      | Some s' => run ops' s'
      | None => None
      end
  end.

Definition at_most_one_running (s : OS) : Prop :=
  ∀ i j, has_state PROCESS_RUNNING (processes s) i = true →
         has_state PROCESS_RUNNING (processes s) j = true → i = j.

(** Only the current slot can be running. *)
Definition running_is_current (s : OS) : Prop :=
  ∀ i, has_state PROCESS_RUNNING (processes s) i = true →
       Z.of_nat i = current_process s.

(** The invariant carried along every operation sequence. *)
Definition inv (s : OS) : Prop :=
  wf s ∧ count_ok s ∧ 0 ≤ current_process s < MAX_PROCESSES ∧
  running_is_current s.

(** Creating one process per name, in order; the results are kept. *)
Fixpoint create_all (names : list (list ascii)) (s : OS)
  : list create_result * OS :=
  match names with
  | [] => ([], s)
  | nm :: rest =>
      let '(r, s1) := process_create nm s in
      let '(rs, s2) := create_all rest s1 in
      (r :: rs, s2)
  end.

(** ** File names

    The name a 32-byte buffer holds, read as a C string: the characters
    before the first NUL. *)
Fixpoint cstring (buf : list ascii) : list ascii :=
  match buf with
  | [] => []
  | c :: rest => if is_nul c then [] else c :: cstring rest
  end.

(** [i] is the lowest-index free slot of the file table. *)
Definition lowest_free_slot (ft : list FileEntry) (i : nat) : Prop :=
  (∃ f, ft !! i = Some f ∧ in_use f = false) ∧
  ∀ j f, (j < i)%nat → ft !! j = Some f → in_use f = true.

(** Some in-use entry stores exactly the name [arg]. *)
Definition name_taken (arg : list ascii) (ft : list FileEntry) : Prop :=
  ∃ k f, ft !! k = Some f ∧ in_use f = true ∧
         cstring (filename f) = cstring arg.

(** Every in-use entry holds a NUL within its buffer. *)
Definition names_terminated (s : OS) : Prop :=
  ∀ i f, file_table s !! i = Some f → in_use f = true →
         (length (cstring (filename f)) < Z.to_nat MAX_FILENAME_LEN)%nat.

(** No two in-use entries store the same name. *)
Definition unique_names (s : OS) : Prop :=
  ∀ i j f g, file_table s !! i = Some f → file_table s !! j = Some g →
             in_use f = true → in_use g = true →
             cstring (filename f) = cstring (filename g) → i = j.

(** The creation arguments of a sequence all fit the name field. *)
Definition short_name (arg : list ascii) : Prop :=
  (length (cstring arg) < Z.to_nat MAX_FILENAME_LEN)%nat.

Definition short_names (ops : list op) : Prop :=
  ∀ arg, OpFsCreate arg ∈ ops → short_name arg.

(** ** Block accounting *)

(** The number of blocks marked used. *)
Fixpoint used_count (m : list bool) : Z :=
  match m with
  | [] => 0
  | b :: m' => (if b then 1 else 0) + used_count m'
  end.

(** The block that holds a process's memory. *)
Definition block_of (p : Process) : nat :=
  Z.to_nat (memory_start p / PROCESS_MEMORY_SIZE).

(** Every live process starts at the boundary of a block marked used. *)
Definition owns_block (s : OS) : Prop :=
  ∀ i p, processes s !! i = Some p → is_live p = true →
         memory_start p = Z.of_nat (block_of p) * PROCESS_MEMORY_SIZE ∧
         memory_map s !! block_of p = Some true.

(** No two live processes hold the same block. *)
Definition disjoint_blocks (s : OS) : Prop :=
  ∀ i j p q, processes s !! i = Some p → processes s !! j = Some q →
             is_live p = true → is_live q = true →
             block_of p = block_of q → i = j.

(** Every block marked used is held by a live process. *)
Definition used_owned (s : OS) : Prop :=
  ∀ b, memory_map s !! b = Some true →
       ∃ i p, processes s !! i = Some p ∧ is_live p = true ∧ block_of p = b.

Definition mem_inv (s : OS) : Prop :=
  owns_block s ∧ disjoint_blocks s ∧ used_owned s ∧
  used_count (memory_map s) = live_count (processes s).

(** What [process_schedule] may do to one slot: nothing, ready to running,
    or running to ready. *)
Definition rescheduled (p p' : Process) : Prop :=
  p' = p ∨
  (state p = PROCESS_READY ∧ p' = set_state PROCESS_RUNNING p) ∨
  (state p = PROCESS_RUNNING ∧ p' = set_state PROCESS_READY p).

(** The operations that go through the process and file tables; the
    allocator is then only called by [process_create] and
    [process_terminate]. *)
Definition table_op (o : op) : bool :=
  match o with
  | OpAllocate | OpFree _ => false
  | _ => true
  end.

(** ** The shell

    [shell_process_command] and [shell_run] act on the state and call
    [printf] and [getchar].  A call of [printf] is recorded as its format
    string and its arguments, in call order; standard input is the list of
    characters still to be read, and past its end [getchar] returns EOF. *)

Definition SHELL_BUFFER_SIZE : Z := 256.

Inductive printf_arg : Set :=
| ArgInt (z : Z)
| ArgStr (s : list ascii).

Inductive printf_call : Set :=
| Printf (format : string) (args : list printf_arg).

(** The newline character, and a format that ends in one. *)
Definition newline : ascii := "010"%char.

Definition line (text : string) : string :=
  String.append text (String newline EmptyString).

Definition is_char (command : list ascii) (i : nat) (c : ascii) : bool :=
  Ascii.eqb (char_at command i) c.

Definition is_help (command : list ascii) : bool :=
  is_char command 0 "h" && is_char command 1 "e" && is_char command 2 "l" &&
  is_char command 3 "p" &&
  (is_char command 4 NUL || is_char command 4 " ").

Definition is_ps (command : list ascii) : bool :=
  is_char command 0 "p" && is_char command 1 "s" &&
  (is_char command 2 NUL || is_char command 2 " ").

Definition is_run (command : list ascii) : bool :=
  is_char command 0 "r" && is_char command 1 "u" && is_char command 2 "n" &&
  is_char command 3 " ".

Definition is_kill (command : list ascii) : bool :=
  is_char command 0 "k" && is_char command 1 "i" && is_char command 2 "l" &&
  is_char command 3 "l" && is_char command 4 " ".

Definition is_ls (command : list ascii) : bool :=
  is_char command 0 "l" && is_char command 1 "s" &&
  (is_char command 2 NUL || is_char command 2 " ").

Definition is_touch (command : list ascii) : bool :=
  is_char command 0 "t" && is_char command 1 "o" && is_char command 2 "u" &&
  is_char command 3 "c" && is_char command 4 "h" && is_char command 5 " ".

Definition is_rm (command : list ascii) : bool :=
  is_char command 0 "r" && is_char command 1 "m" && is_char command 2 " ".

Definition is_exit (command : list ascii) : bool :=
  is_char command 0 "e" && is_char command 1 "x" && is_char command 2 "i" &&
  is_char command 3 "t" &&
  (is_char command 4 NUL || is_char command 4 " ").

Definition help_text : list printf_call :=
  [ Printf (line "SimpleOS Commands:") [];
    Printf (line "  help                 - Display this help message") [];
    Printf (line "  ps                   - List all processes") [];
    Printf (line "  run [program]        - Run a program") [];
    Printf (line "  kill [pid]           - Terminate a process") [];
    Printf (line "  ls                   - List all files") [];
    Printf (line "  touch [filename]     - Create a new file") [];
    Printf (line "  rm [filename]        - Delete a file") [];
    Printf (line "  exit                 - Shut down the system") [] ].

(** The [switch] of the [ps] command. *)
Definition state_str (st : ProcessState) : list ascii :=
  match st with
  | PROCESS_READY => chars "READY"
  | PROCESS_RUNNING => chars "RUNNING"
  | PROCESS_BLOCKED => chars "BLOCKED"
  | PROCESS_TERMINATED => chars "TERM"
  end.

(** One turn of the [ps] loop at slot [i]. *)
Definition ps_row (ps : list Process) (i : nat) : list printf_call :=
  match ps !! i with
  | Some p =>
      if negb (state_eqb (state p) PROCESS_TERMINATED)
      then [Printf (line "%3d  %-8s  %s")
                   [ArgInt (Z.of_nat i); ArgStr (state_str (state p));
                    ArgStr (name p)]]
      else []
  | None => []
  end.

Definition ps_rows (ps : list Process) : list printf_call :=
  flat_map (ps_row ps) (seq 0 (Z.to_nat MAX_PROCESSES)).

(** One turn of the [ls] loop at slot [i]. *)
Definition ls_row (ft : list FileEntry) (i : nat) : list printf_call :=
  match ft !! i with
  | Some f =>
      if in_use f
      then [Printf (line "%s (%d bytes)") [ArgStr (filename f); ArgInt (size f)]]
      else []
  | None => []
  end.

Definition ls_rows (ft : list FileEntry) : list printf_call :=
  flat_map (ls_row ft) (seq 0 (Z.to_nat MAX_FILES)).

Definition INT_MAX : Z := 2147483647.

Definition is_digit (c : ascii) : bool :=
  (48 <=? Z.of_nat (nat_of_ascii c)) && (Z.of_nat (nat_of_ascii c) <=? 57).

(** [while (command[i] >= '0' && command[i] <= '9')
       { pid = pid * 10 + (command[i] - '0'); i++; }] on the characters from
    [command[i]] on.  [pid] is an [int]: [None] is the signed overflow. *)
Fixpoint parse_pid (cs : list ascii) (pid : Z) : option Z :=
  match cs with
  | [] => Some pid
  | c :: cs' =>
      if is_digit c then
        let pid' := pid * 10 + (Z.of_nat (nat_of_ascii c) - 48) in
        if pid' <=? INT_MAX then parse_pid cs' pid' else None
      else Some pid
  end.

(** [None] only when the [kill] argument overflows an [int]. *)
Definition shell_process_command (command : list ascii) (s : OS)
  : option (list printf_call * OS) :=
  if is_help command then Some (help_text, s)
  else if is_ps command then
    Some ([Printf (line "PID  STATE     NAME") [];
           Printf (line "---  --------  ----------------") []]
          ++ ps_rows (processes s), s)
  else if is_run command then
    let program_name := drop 4 command in
    let '(r, s1) := process_create program_name s in
    let pid := create_code r in
    if negb (pid =? 0xFF)
    then Some ([Printf (line "Started process %d: %s")
                       [ArgInt pid; ArgStr program_name]], s1)
    else Some ([Printf (line "Failed to start process") []], s1)
  else if is_kill command then
    match parse_pid (drop 5 command) 0 with
    | None => None
    | Some pid =>
        if (pid >=? 0) && (pid <? MAX_PROCESSES) &&
           negb (has_state PROCESS_TERMINATED (processes s) (Z.to_nat pid))
        then Some ([Printf (line "Terminated process %d") [ArgInt pid]],
                   process_terminate pid s)
        else Some ([Printf (line "Invalid process ID") []], s)
    end
  else if is_ls command then
    let rows := ls_rows (file_table s) in
    Some ([Printf (line "FILES:") [];
           Printf (line "---------------------") []]
          ++ rows
          ++ (if Nat.eqb (length rows) 0
              then [Printf (line "No files found") []] else []), s)
  else if is_touch command then
    let filename := drop 6 command in
    let '(result, s1) := fs_create filename s in
    if result >=? 0
    then Some ([Printf (line "Created file: %s") [ArgStr filename]], s1)
    else if result =? -1
    then Some ([Printf (line "Failed: File system full") []], s1)
    else Some ([Printf (line "Failed: File already exists") []], s1)
  else if is_rm command then
    let filename := drop 3 command in
    let '(found, s1) := fs_delete filename s in
    if found
    then Some ([Printf (line "Deleted file: %s") [ArgStr filename]], s1)
    else Some ([Printf (line "Failed: File not found") []], s1)
  else if is_exit command then
    Some ([Printf (line "Shutting down SimpleOS...") []],
          set_system_running false s)
  else
    Some ([Printf (line "Unknown command: %s") [ArgStr command];
           Printf (line "Type 'help' for available commands") []], s).

(** [(char)EOF], what [c = getchar()] stores at the end of the input. *)
Definition EOF_char : ascii := "255"%char.

Definition getchar (input : list ascii) : ascii * list ascii :=
  match input with
  | [] => (EOF_char, [])
  | c :: rest => (c, rest)
  end.

(** [while ((c = getchar()) != '\n' && i < SHELL_BUFFER_SIZE - 1)
       input_buffer[i++] = c;]  The fuel is [SHELL_BUFFER_SIZE - 1 - i]; the
    character read when the buffer is full is lost.  Returns the characters
    stored and the input left. *)
Fixpoint read_command (fuel : nat) (input : list ascii)
  : list ascii * list ascii :=
  let '(c, rest) := getchar input in
  if Ascii.eqb c newline then ([], rest)
  else
    match fuel with
    | O => ([], rest)
    | S fuel' =>
        let '(stored, rest') := read_command fuel' rest in
        (c :: stored, rest')
    end.

(** One turn of the loop of [shell_run]: prompt, read, dispatch,
    schedule. *)
Definition shell_turn (input : list ascii) (s : OS)
  : option (list printf_call * list ascii * OS) :=
  let '(command, rest) :=
    read_command (Z.to_nat (SHELL_BUFFER_SIZE - 1)) input in
  match shell_process_command command s with
  | None => None
  | Some (out, s1) =>
      match process_schedule s1 with
      | None => None
      | Some s2 => Some (Printf "SimpleOS> " [] :: out, rest, s2)
      end
  end.

(** The [while (simple_os.system_running)] loop; [None] is the loop still
    running after [fuel] turns (or a turn that did not return). *)
Fixpoint shell_loop (fuel : nat) (input : list ascii) (s : OS)
  : option (list printf_call * list ascii * OS) :=
  if system_running s then
    match fuel with
    | O => None
    | S fuel' =>
        match shell_turn input s with
        | None => None
        | Some (out, rest, s1) =>
            match shell_loop fuel' rest s1 with
            | None => None
            | Some (out', rest', s2) => Some (out ++ out', rest', s2)
            end
        end
    end
  else Some ([], input, s).

Definition shell_run (fuel : nat) (input : list ascii) (s : OS)
  : option (list printf_call * list ascii * OS) :=
  match shell_loop fuel input s with
  | None => None
  | Some (out, rest, s') =>
      Some ([Printf (String newline (line "SimpleOS v0.1")) [];
             Printf (line (line "Type 'help' for available commands")) []]
            ++ out, rest, s')
  end.

(** [main]: initialise, run the shell on the input, report the shutdown. *)
Definition main (fuel : nat) (input : list ascii)
  : option (list printf_call * list ascii * OS) :=
  let s0 := os_init zero_os in
  match shell_run fuel input s0 with
  | None => None
  | Some (out, rest, s') =>
      Some ([Printf (line "SimpleOS initialized successfully") []]
            ++ out
            ++ [Printf (line "SimpleOS shutdown complete") []], rest, s')
  end.

(** The invariants that a shell session keeps. *)
Definition session_inv (s : OS) : Prop :=
  inv s ∧ mem_inv s ∧ names_terminated s.


(** ** Basic facts about scans and table reads *)

Lemma wf_memory_map s : wf s → length (memory_map s) = Z.to_nat NUM_BLOCKS.
Proof. by intros (? & ? & ? & ? & ?). Qed.

Lemma wf_processes s : wf s → length (processes s) = Z.to_nat MAX_PROCESSES.
Proof. by intros (? & ? & ? & ? & ?). Qed.

Lemma wf_file_table s : wf s → length (file_table s) = Z.to_nat MAX_FILES.
Proof. by intros (? & ? & ? & ? & ?). Qed.

Lemma wf_memory_start s :
  wf s → ∀ i p, processes s !! i = Some p → 0 ≤ memory_start p < MEMORY_SIZE.
Proof.
  intros (_ & _ & _ & H & _) i p Hp.
  by destruct (proj1 (Forall_lookup _ _) H i p Hp).
Qed.

Lemma wf_filename s :
  wf s → ∀ i f, file_table s !! i = Some f →
                length (filename f) = Z.to_nat MAX_FILENAME_LEN.
Proof.
  intros (_ & _ & _ & _ & H) i f Hf.
  exact (proj1 (Forall_lookup _ _) H i f Hf).
Qed.

Section Scans.
Variable P : nat → bool.

Lemma first_index_Some n i k :
  first_index P n i = Some k ↔
  (i ≤ k < i + n)%nat ∧ P k = true ∧ ∀ j, (i ≤ j < k)%nat → P j = false.
Proof.
  revert i. induction n as [|n IH]; intros i; simpl.
  - split; [discriminate | lia].
  - destruct (P i) eqn:HP.
    + split.
      * intros [= <-]. repeat split; [lia | lia | done | lia].
      * intros (Hr & Hk & Hlow). f_equal.
        destruct (decide (i = k)) as [|Hne]; [done|].
        rewrite Hlow in HP by lia. discriminate.
    + rewrite IH. split.
      * intros (Hr & Hk & Hlow). repeat split; [lia | lia | done |].
        intros j Hj. destruct (decide (j = i)) as [->|]; [done|].
        apply Hlow. lia.
      * intros (Hr & Hk & Hlow).
        assert (i ≠ k) by (intros ->; congruence).
        repeat split; [lia | lia | done |].
        intros j Hj. apply Hlow. lia.
Qed.

Lemma first_index_None n i :
  first_index P n i = None ↔ ∀ j, (i ≤ j < i + n)%nat → P j = false.
Proof.
  revert i. induction n as [|n IH]; intros i; simpl.
  - split; [intros _ j; lia | done].
  - destruct (P i) eqn:HP.
    + split; [discriminate|]. intros H. rewrite H in HP by lia. discriminate.
    + rewrite IH. split.
      * intros H j Hj. destruct (decide (j = i)) as [->|]; [done|].
        apply H. lia.
      * intros H j Hj. apply H. lia.
Qed.
End Scans.

Lemma state_eqb_eq a b : state_eqb a b = true ↔ a = b.
Proof. destruct a, b; simpl; split; congruence. Qed.

Lemma has_state_true st ps i :
  has_state st ps i = true ↔ ∃ p, ps !! i = Some p ∧ state p = st.
Proof.
  unfold has_state. destruct (ps !! i) as [p|].
  - rewrite state_eqb_eq. split; [eauto|]. by intros (? & [= <-] & ?).
  - split; [discriminate|]. by intros (? & ? & ?).
Qed.

Lemma block_free_true m i : block_free m i = true ↔ m !! i = Some false.
Proof.
  unfold block_free. destruct (m !! i) as [[]|]; simpl; split; congruence.
Qed.

Lemma block_free_false m i :
  (i < length m)%nat → block_free m i = false ↔ m !! i = Some true.
Proof.
  intros Hi. unfold block_free.
  destruct (m !! i) as [[]|] eqn:E; simpl; try (split; congruence).
  apply lookup_ge_None in E. lia.
Qed.

Lemma slot_free_true ft i :
  slot_free ft i = true ↔ ∃ f, ft !! i = Some f ∧ in_use f = false.
Proof.
  unfold slot_free. destruct (ft !! i) as [f|].
  - rewrite negb_true_iff. split; [eauto|]. by intros (? & [= <-] & ?).
  - split; [discriminate|]. by intros (? & ? & ?).
Qed.

Lemma num_blocks_eq : Z.to_nat NUM_BLOCKS = 16%nat.
Proof. reflexivity. Qed.

Lemma max_processes_eq : Z.to_nat MAX_PROCESSES = 16%nat.
Proof. reflexivity. Qed.

Lemma max_files_eq : Z.to_nat MAX_FILES = 32%nat.
Proof. reflexivity. Qed.

(** ** Block allocator *)

Lemma lowest_free_first_index m i :
  (i < Z.to_nat NUM_BLOCKS)%nat → length m = Z.to_nat NUM_BLOCKS →
  lowest_free m i →
  first_index (block_free m) (Z.to_nat NUM_BLOCKS) 0 = Some i.
Proof.
  intros Hi Hlen [Hfree Hlow]. apply first_index_Some.
  repeat split; [lia | lia | by apply block_free_true |].
  intros j Hj. apply block_free_false; [lia|]. apply Hlow. lia.
Qed.

Lemma first_index_lowest_free m i :
  length m = Z.to_nat NUM_BLOCKS →
  first_index (block_free m) (Z.to_nat NUM_BLOCKS) 0 = Some i →
  (i < Z.to_nat NUM_BLOCKS)%nat ∧ lowest_free m i.
Proof.
  intros Hlen (Hr & Hfree & Hlow)%first_index_Some.
  split; [lia|]. split; [by apply block_free_true|].
  intros j Hj. apply block_free_false; [lia|]. apply Hlow. lia.
Qed.

Lemma memory_allocate_exhausted s :
  (∀ i, (i < Z.to_nat NUM_BLOCKS)%nat → memory_map s !! i = Some true) →
  memory_allocate s = (0xFFFF, s).
Proof.
  intros Hall. unfold memory_allocate.
  replace (first_index _ _ _) with (@None nat); [done|].
  symmetry. apply first_index_None. intros j Hj.
  unfold block_free. rewrite Hall by lia. done.
Qed.

Lemma block_address_range i :
  (i < Z.to_nat NUM_BLOCKS)%nat →
  uint16 (Z.of_nat i * PROCESS_MEMORY_SIZE) = Z.of_nat i * PROCESS_MEMORY_SIZE ∧
  Z.of_nat i * PROCESS_MEMORY_SIZE < 0xFFFF.
Proof.
  rewrite num_blocks_eq. unfold uint16, PROCESS_MEMORY_SIZE. intros Hi.
  split; [apply Z.mod_small|]; lia.
Qed.

(** C6 — [memory_allocate] hands out the lowest-index free block.  When some
    block is free, the call returns [i * PROCESS_MEMORY_SIZE] for the
    lowest free index [i], sets flag [i] and changes nothing else; when
    every block is used it returns [0xFFFF] and the state is unchanged. *)
Theorem memory_allocate_first_fit (s : OS) :
  length (memory_map s) = Z.to_nat NUM_BLOCKS →
  ((∃ k, memory_map s !! k = Some false) →
   ∃ i, lowest_free (memory_map s) i ∧
        memory_allocate s =
          (Z.of_nat i * PROCESS_MEMORY_SIZE,
           set_memory_map (λ m, <[i := true]> m) s) ∧
        Z.of_nat i * PROCESS_MEMORY_SIZE ≠ 0xFFFF ∧
        memory_map (memory_allocate s).2 !! i = Some true ∧
        ∀ j, j ≠ i →
             memory_map (memory_allocate s).2 !! j = memory_map s !! j) ∧
  ((∀ i, (i < Z.to_nat NUM_BLOCKS)%nat → memory_map s !! i = Some true) →
   memory_allocate s = (0xFFFF, s)).
Proof.
  intros Hlen. split; [|apply memory_allocate_exhausted].
  intros [k Hk].
  destruct (first_index (block_free (memory_map s)) (Z.to_nat NUM_BLOCKS) 0)
    as [i|] eqn:Hscan.
  - destruct (first_index_lowest_free _ _ Hlen Hscan) as [Hi Hlow].
    destruct (block_address_range i Hi) as [Hwrap Hne].
    exists i. unfold memory_allocate. rewrite Hscan, Hwrap. simpl.
    repeat split; try done; try apply Hlow.
    + lia.
    + apply list_lookup_insert_eq. lia.
    + intros j Hj. by apply list_lookup_insert_ne.
  - exfalso. rewrite first_index_None in Hscan.
    assert (k < length (memory_map s))%nat by (eapply lookup_lt_Some; eauto).
    specialize (Hscan k ltac:(lia)). unfold block_free in Hscan.
    rewrite Hk in Hscan. discriminate.
Qed.

Lemma memory_allocate_first_fit_witness :
  memory_allocate initial_os =
    (0, set_memory_map (λ m, <[0%nat := true]> m) initial_os) ∧
  memory_allocate (set_memory_map (λ _, replicate 16 true) initial_os) =
    (0xFFFF, set_memory_map (λ _, replicate 16 true) initial_os).
Proof.
  split.
  - destruct (memory_allocate_first_fit initial_os eq_refl) as [H _].
    destruct (H (ex_intro _ 0%nat eq_refl)) as (i & [Hfree Hlow] & Heq & _).
    destruct i as [|i]; [exact Heq|].
    specialize (Hlow 0%nat ltac:(lia)). discriminate Hlow.
  - apply (memory_allocate_first_fit
             (set_memory_map (λ _, replicate 16 true) initial_os) eq_refl).
    intros i Hi. apply lookup_replicate_2. exact Hi.
Defined.

Lemma memory_free_block_range off :
  0 ≤ off →
  0 ≤ off / PROCESS_MEMORY_SIZE ∧
  (off < MEMORY_SIZE → off / PROCESS_MEMORY_SIZE < NUM_BLOCKS).
Proof.
  intros Hoff. change NUM_BLOCKS with 16.
  unfold PROCESS_MEMORY_SIZE, MEMORY_SIZE.
  split; [apply Z.div_pos; lia|].
  intros Hlt. apply Z.div_lt_upper_bound; lia.
Qed.

Lemma memory_free_used s off :
  0 ≤ off →
  memory_map s !! Z.to_nat (off / PROCESS_MEMORY_SIZE) = Some true →
  off / PROCESS_MEMORY_SIZE < NUM_BLOCKS →
  memory_free off s =
    set_memory_map (λ m, <[Z.to_nat (off / PROCESS_MEMORY_SIZE) := false]> m) s ∧
  memory_free off s ≠ s.
Proof.
  intros Hoff Hused Hlt. unfold memory_free.
  destruct (Z.ltb_spec (off / PROCESS_MEMORY_SIZE) NUM_BLOCKS) as [_|]; [|lia].
  split; [done|]. intros Heq.
  apply (f_equal memory_map) in Heq. simpl in Heq.
  assert (Hb : <[Z.to_nat (off / PROCESS_MEMORY_SIZE) := false]> (memory_map s)
               !! Z.to_nat (off / PROCESS_MEMORY_SIZE) = Some false).
  { apply list_lookup_insert_eq. eapply lookup_lt_Some; eauto. }
  rewrite Heq, Hused in Hb. discriminate.
Qed.

(** C3, as amended — [memory_free] looks only at the block that contains
    the offset ([off / PROCESS_MEMORY_SIZE]), not at the alignment of the
    offset.  The call leaves the state unchanged exactly when that block is
    out of range or already free; for every offset inside an in-range used
    block, aligned or not, it clears the flag of that block and nothing
    else. *)
Theorem memory_free_noop_iff (s : OS) (off : Z) :
  length (memory_map s) = Z.to_nat NUM_BLOCKS →
  0 ≤ off →
  (memory_free off s = s ↔
     NUM_BLOCKS ≤ off / PROCESS_MEMORY_SIZE ∨
     memory_map s !! Z.to_nat (off / PROCESS_MEMORY_SIZE) = Some false) ∧
  (off / PROCESS_MEMORY_SIZE < NUM_BLOCKS →
   memory_free off s =
     set_memory_map (λ m, <[Z.to_nat (off / PROCESS_MEMORY_SIZE) := false]> m) s).
Proof.
  intros Hlen Hoff.
  destruct (memory_free_block_range off Hoff) as [Hpos _].
  split.
  - split.
    + intros Hnoop.
      destruct (Z.le_gt_cases NUM_BLOCKS (off / PROCESS_MEMORY_SIZE)) as [|Hlt];
        [by left | right].
      destruct (memory_map s !! Z.to_nat (off / PROCESS_MEMORY_SIZE))
        as [[]|] eqn:E; [|done|].
      * by destruct (memory_free_used s off Hoff E Hlt) as [_ Hne].
      * apply lookup_ge_None in E. rewrite Hlen, num_blocks_eq in E.
        change NUM_BLOCKS with 16 in Hlt. lia.
    + unfold memory_free. intros [Hout | Hfree].
      * destruct (Z.ltb_spec (off / PROCESS_MEMORY_SIZE) NUM_BLOCKS); [lia | done].
      * destruct (_ <? _); [|done]. destruct s; unfold set_memory_map; simpl in *.
        f_equal. by apply list_insert_id.
  - intros Hlt. unfold memory_free.
    destruct (Z.ltb_spec (off / PROCESS_MEMORY_SIZE) NUM_BLOCKS); [done | lia].
Qed.

Lemma memory_free_noop_iff_witness :
  memory_free 4097 initial_os = initial_os.
Proof.
  assert (Hoff : 0 ≤ 4097) by lia.
  destruct (memory_free_noop_iff initial_os 4097 eq_refl Hoff) as [[_ H] _].
  apply H. right. reflexivity.
Defined.

(** C3, as stated, fails: offset 1 is not a block boundary, yet after one
    allocation (block 0 in use) [memory_free 1] clears block 0. *)
Lemma memory_free_unaligned_not_noop :
  let s := (memory_allocate initial_os).2 in
  ¬ used_block_boundary s 1 ∧ memory_free 1 s ≠ s.
Proof.
  intros s. subst s. split.
  - intros [Hal _]. vm_compute in Hal. discriminate.
  - intros Heq. apply (f_equal memory_map) in Heq.
    vm_compute in Heq. discriminate.
Qed.

(** ** Counting live slots *)

Lemma live_count_bounds ps : 0 ≤ live_count ps ≤ Z.of_nat (length ps).
Proof. induction ps as [|p ps IH]; simpl; [lia|]. destruct (is_live p); lia. Qed.

Lemma live_count_alter f i ps p :
  ps !! i = Some p →
  live_count (alter f i ps) =
    live_count ps - (if is_live p then 1 else 0) + (if is_live (f p) then 1 else 0).
Proof.
  revert i. induction ps as [|q ps IH]; intros [|i] Hi; simpl in *; try done.
  - injection Hi as ->. lia.
  - specialize (IH i Hi). unfold alter in IH. lia.
Qed.

Lemma live_count_dead_slot ps i p :
  ps !! i = Some p → is_live p = false → live_count ps < Z.of_nat (length ps).
Proof.
  revert i. induction ps as [|q ps IH]; intros [|i] Hi Hdead; simpl in *; try done.
  - injection Hi as ->. rewrite Hdead. pose proof (live_count_bounds ps). lia.
  - specialize (IH i Hi Hdead). destruct (is_live q); lia.
Qed.

Lemma live_count_live_slot ps i p :
  ps !! i = Some p → is_live p = true → 0 < live_count ps.
Proof.
  revert i. induction ps as [|q ps IH]; intros [|i] Hi Hlive; simpl in *; try done.
  - injection Hi as ->. rewrite Hlive. pose proof (live_count_bounds ps). lia.
  - specialize (IH i Hi Hlive). destruct (is_live q); lia.
Qed.

Lemma is_live_false p : is_live p = false ↔ state p = PROCESS_TERMINATED.
Proof. unfold is_live. rewrite negb_false_iff. apply state_eqb_eq. Qed.

Lemma is_live_true p : is_live p = true ↔ state p ≠ PROCESS_TERMINATED.
Proof.
  unfold is_live. rewrite negb_true_iff, <- not_true_iff_false.
  by rewrite state_eqb_eq.
Qed.

(** ** Process creation *)

Lemma memory_allocate_failed s :
  (memory_allocate s).1 = 0xFFFF → (memory_allocate s).2 = s.
Proof.
  unfold memory_allocate.
  destruct (first_index _ _ _) as [i|] eqn:Hscan; [|done]. simpl.
  apply first_index_Some in Hscan as (Hr & _ & _).
  destruct (block_address_range i ltac:(lia)) as [-> Hlt]. lia.
Qed.

Lemma process_create_failed nm s e :
  (process_create nm s).1 = CreateFailed e → (process_create nm s).2 = s.
Proof.
  unfold process_create.
  destruct (process_count s >=? MAX_PROCESSES); [done|].
  destruct (first_index _ _ _) as [pid|]; [|done].
  pose proof (memory_allocate_failed s) as Hmem.
  destruct (memory_allocate s) as [mem_start s1]. simpl in Hmem.
  destruct (Z.eqb_spec mem_start 0xFFFF) as [->|]; simpl; [auto | discriminate].
Qed.

Lemma process_create_out_of_memory nm s :
  length (processes s) = Z.to_nat MAX_PROCESSES →
  count_ok s →
  (∃ i p, processes s !! i = Some p ∧ state p = PROCESS_TERMINATED) →
  (∀ i, (i < Z.to_nat NUM_BLOCKS)%nat → memory_map s !! i = Some true) →
  process_create nm s = (CreateFailed OutOfMemory, s).
Proof.
  intros Hlen Hcount (i & p & Hi & Hp) Hfull. unfold process_create.
  assert (process_count s < MAX_PROCESSES) as Hlt.
  { rewrite Hcount. apply is_live_false in Hp.
    pose proof (live_count_dead_slot _ _ _ Hi Hp) as H.
    rewrite Hlen, max_processes_eq in H. unfold MAX_PROCESSES. lia. }
  destruct (Z.geb_spec (process_count s) MAX_PROCESSES) as [|_]; [lia|].
  destruct (first_index _ _ _) as [pid|] eqn:Hscan.
  - by rewrite (memory_allocate_exhausted s Hfull).
  - exfalso. rewrite first_index_None in Hscan.
    assert (i < length (processes s))%nat by (eapply lookup_lt_Some; eauto).
    specialize (Hscan i ltac:(lia)).
    apply not_true_iff_false in Hscan. apply Hscan.
    apply has_state_true. eauto.
Qed.

(** C4 — [process_create] is atomic on failure.  Whichever failing return
    is taken, the C return value is [0xFF] and the whole state is the one
    before the call (so no slot is consumed, the live count and the bitmap
    are unchanged).  When the count agrees with the table, a slot is free
    and every block is used, the failure is the out-of-memory one. *)
Theorem process_create_atomic (nm : list ascii) (s : OS) :
  (∀ e, (process_create nm s).1 = CreateFailed e →
        (process_create nm s).2 = s ∧
        create_code (process_create nm s).1 = 0xFF ∧
        live_count (processes (process_create nm s).2) = live_count (processes s) ∧
        process_count (process_create nm s).2 = process_count s ∧
        memory_map (process_create nm s).2 = memory_map s) ∧
  (length (processes s) = Z.to_nat MAX_PROCESSES →
   count_ok s →
   (∃ i p, processes s !! i = Some p ∧ state p = PROCESS_TERMINATED) →
   (∀ i, (i < Z.to_nat NUM_BLOCKS)%nat → memory_map s !! i = Some true) →
   process_create nm s = (CreateFailed OutOfMemory, s)).
Proof.
  split; [|apply process_create_out_of_memory].
  intros e He. pose proof (process_create_failed nm s e He) as Hs.
  rewrite Hs, He. done.
Qed.

Lemma process_create_atomic_witness :
  let full := set_memory_map (λ _, replicate 16 true) initial_os in
  process_create [] full = (CreateFailed OutOfMemory, full).
Proof.
  intros full.
  apply (proj2 (process_create_atomic [] full)).
  - reflexivity.
  - reflexivity.
  - exists 0%nat. eexists. split; reflexivity.
  - intros i Hi. apply lookup_replicate_2. exact Hi.
Defined.

(** ** Process termination *)

Lemma has_state_alter st i ps :
  (i < length ps)%nat → has_state st (alter (set_state st) i ps) i = true.
Proof.
  intros Hi. apply has_state_true.
  destruct (lookup_lt_is_Some_2 ps i Hi) as [p Hp].
  exists (set_state st p). split; [|done].
  by rewrite list_lookup_alter_eq, Hp.
Qed.

Lemma process_terminate_noop pid s :
  MAX_PROCESSES ≤ pid ∨
  (∃ p, processes s !! Z.to_nat pid = Some p ∧ state p = PROCESS_TERMINATED) →
  process_terminate pid s = s.
Proof.
  unfold process_terminate. intros [Hge | Hterm].
  - destruct (Z.geb_spec pid MAX_PROCESSES); [done | lia].
  - apply has_state_true in Hterm. rewrite Hterm. by rewrite orb_true_r.
Qed.

Lemma process_terminate_live pid s p :
  pid < MAX_PROCESSES →
  processes s !! Z.to_nat pid = Some p →
  state p ≠ PROCESS_TERMINATED →
  0 ≤ memory_start p < MEMORY_SIZE →
  process_terminate pid s =
    mkOS (<[Z.to_nat (memory_start p / PROCESS_MEMORY_SIZE) := false]> (memory_map s))
         (<[Z.to_nat pid := set_state PROCESS_TERMINATED p]> (processes s))
         (current_process s)
         (uint8 (process_count s - 1))
         (file_table s)
         (system_running s).
Proof.
  intros Hlt Hp Hlive Hrange. unfold process_terminate.
  destruct (Z.geb_spec pid MAX_PROCESSES) as [|_]; [lia|]. simpl.
  destruct (has_state _ _ _) eqn:Hst.
  { apply has_state_true in Hst as (q & Hq & Hterm). congruence. }
  rewrite Hp. unfold memory_free.
  destruct (memory_free_block_range (memory_start p) (proj1 Hrange)) as [_ Hblk].
  destruct (Z.ltb_spec (memory_start p / PROCESS_MEMORY_SIZE) NUM_BLOCKS)
    as [_|]; [|lia].
  unfold set_process_count, set_processes, set_memory_map. simpl.
  f_equal. apply list_eq. intros j.
  destruct (decide (j = Z.to_nat pid)) as [->|Hne].
  - rewrite list_lookup_alter_eq, Hp. simpl.
    symmetry. apply list_lookup_insert_eq. eapply lookup_lt_Some; eauto.
  - by rewrite list_lookup_alter_ne, list_lookup_insert_ne.
Qed.

Lemma insert_set_state_alter st (i : nat) (ps : list Process) p :
  ps !! i = Some p → <[i := set_state st p]> ps = alter (set_state st) i ps.
Proof.
  intros Hp. apply list_eq. intros j.
  destruct (decide (j = i)) as [->|Hne].
  - rewrite list_lookup_alter_eq, Hp. simpl.
    apply list_lookup_insert_eq. eapply lookup_lt_Some; eauto.
  - by rewrite list_lookup_alter_ne, list_lookup_insert_ne.
Qed.

Lemma terminate_count (ps : list Process) (i : nat) p c :
  length ps = Z.to_nat MAX_PROCESSES →
  ps !! i = Some p → state p ≠ PROCESS_TERMINATED →
  c = live_count ps →
  uint8 (c - 1) = c - 1 ∧
  c - 1 = live_count (<[i := set_state PROCESS_TERMINATED p]> ps).
Proof.
  intros Hlen Hp Hlive ->.
  assert (Hl : is_live p = true) by by apply is_live_true.
  pose proof (live_count_live_slot _ _ _ Hp Hl) as Hpos.
  pose proof (live_count_bounds ps) as Hb.
  rewrite Hlen, max_processes_eq in Hb.
  split.
  - unfold uint8. apply Z.mod_small. lia.
  - rewrite (insert_set_state_alter _ _ _ _ Hp).
    rewrite (live_count_alter _ _ _ _ Hp), Hl. simpl. lia.
Qed.

(** C5 — [process_terminate].  An out-of-range pid, or one whose slot is
    already terminated, leaves the state unchanged.  For a live slot the
    call clears the bitmap flag of the block holding [memory_start], sets
    the slot's state to [PROCESS_TERMINATED] and touches nothing else in the
    tables; the stored count goes down by one (and still agrees with the
    table when it did before).  Terminating twice is terminating once. *)
Theorem process_terminate_spec (s : OS) (pid : Z) :
  wf s → 0 ≤ pid →
  (MAX_PROCESSES ≤ pid ∨
   (∃ p, processes s !! Z.to_nat pid = Some p ∧ state p = PROCESS_TERMINATED) →
   process_terminate pid s = s) ∧
  (∀ p, pid < MAX_PROCESSES →
        processes s !! Z.to_nat pid = Some p →
        state p ≠ PROCESS_TERMINATED →
        let s' := process_terminate pid s in
        let block := Z.to_nat (memory_start p / PROCESS_MEMORY_SIZE) in
        memory_map s' = <[block := false]> (memory_map s) ∧
        memory_map s' !! block = Some false ∧
        processes s' = <[Z.to_nat pid := set_state PROCESS_TERMINATED p]> (processes s) ∧
        has_state PROCESS_TERMINATED (processes s') (Z.to_nat pid) = true ∧
        current_process s' = current_process s ∧
        file_table s' = file_table s ∧
        system_running s' = system_running s ∧
        (count_ok s →
         process_count s' = process_count s - 1 ∧ count_ok s')) ∧
  process_terminate pid (process_terminate pid s) = process_terminate pid s.
Proof.
  intros Hwf Hpid. split; [apply process_terminate_noop|].
  assert (Hstep : ∀ p, pid < MAX_PROCESSES →
            processes s !! Z.to_nat pid = Some p →
            state p ≠ PROCESS_TERMINATED →
            process_terminate pid s =
              mkOS (<[Z.to_nat (memory_start p / PROCESS_MEMORY_SIZE) := false]>
                      (memory_map s))
                   (<[Z.to_nat pid := set_state PROCESS_TERMINATED p]> (processes s))
                   (current_process s) (uint8 (process_count s - 1))
                   (file_table s) (system_running s)).
  { intros p Hlt Hp Hlive. apply process_terminate_live; try done.
    apply (wf_memory_start s Hwf _ _ Hp). }
  split.
  - intros p Hlt Hp Hlive s' block. subst s'.
    rewrite (Hstep p Hlt Hp Hlive). simpl.
    assert (Hi : (Z.to_nat pid < length (processes s))%nat)
      by (eapply lookup_lt_Some; eauto).
    split_and!; try done.
    + apply list_lookup_insert_eq. rewrite (wf_memory_map s Hwf), num_blocks_eq.
      destruct (wf_memory_start s Hwf _ _ Hp) as [Hlo Hhi].
      destruct (memory_free_block_range (memory_start p) Hlo) as [Hb0 Hb1].
      specialize (Hb1 Hhi). change NUM_BLOCKS with 16 in Hb1. subst block. lia.
    + apply has_state_true. eexists.
      split; [by apply list_lookup_insert_eq | done].
    + intros Hc. unfold count_ok in *. simpl.
      destruct (terminate_count _ _ _ _ (wf_processes s Hwf) Hp Hlive Hc)
        as [Hdec Hcnt].
      rewrite Hdec. done.
  - destruct (Z.le_gt_cases MAX_PROCESSES pid) as [Hge|Hlt].
    { by rewrite !(process_terminate_noop pid s (or_introl Hge)). }
    assert (Hi : (Z.to_nat pid < length (processes s))%nat).
    { rewrite (wf_processes s Hwf), max_processes_eq. unfold MAX_PROCESSES in Hlt. lia. }
    destruct (lookup_lt_is_Some_2 _ _ Hi) as [p Hp].
    destruct (decide (state p = PROCESS_TERMINATED)) as [Hterm|Hlive].
    { by rewrite !(process_terminate_noop pid s (or_intror (ex_intro _ p (conj Hp Hterm)))). }
    apply process_terminate_noop. right.
    rewrite (Hstep p Hlt Hp Hlive). simpl.
    eexists. split; [by apply list_lookup_insert_eq | done].
Qed.

Lemma process_terminate_spec_witness :
  let s := (process_create (chars "shell") initial_os).2 in
  process_terminate 0 (process_terminate 0 s) = process_terminate 0 s.
Proof.
  intros s.
  assert (Hwf : wf s) by (apply (bool_decide_unpack _); vm_compute; exact I).
  assert (H0 : 0 ≤ 0) by lia.
  exact (proj2 (proj2 (process_terminate_spec s 0 Hwf H0))).
Defined.

(** ** Table updates *)

Lemma has_state_alter_eq st g i ps :
  has_state st (alter g i ps) i =
    match ps !! i with
    | Some p => state_eqb (state (g p)) st
    | None => false
    end.
Proof. unfold has_state. rewrite list_lookup_alter_eq. by destruct (ps !! i). Qed.

Lemma has_state_alter_ne st g i j ps :
  i ≠ j → has_state st (alter g i ps) j = has_state st ps j.
Proof. intros Hne. unfold has_state. by rewrite list_lookup_alter_ne. Qed.

Lemma copy_loop_length fuel i src dst :
  length (copy_loop fuel i src dst) = length dst.
Proof.
  revert i dst. induction fuel as [|fuel IH]; intros i dst; simpl.
  - apply length_insert.
  - destruct (is_nul _); [apply length_insert|].
    rewrite IH. apply length_insert.
Qed.

Lemma wf_set_memory_map f s :
  (∀ m, length (f m) = length m) → wf s → wf (set_memory_map f s).
Proof.
  intros Hf (Hm & Hrest). split; [|exact Hrest]. simpl. by rewrite Hf.
Qed.

Lemma wf_alter_process g i s :
  (∀ p, memory_start (g p) = memory_start p ∧ name (g p) = name p) →
  wf s → wf (set_processes (alter g i) s).
Proof.
  intros Hg (Hm & Hp & Hf & Hps & Hfs). unfold wf. simpl.
  split_and!; try done.
  - by rewrite length_alter.
  - apply Forall_alter; [done|]. intros p _.
    by destruct (Hg p) as [-> ->].
Qed.

Lemma wf_alter_file g i s :
  (∀ f, length (filename f) = Z.to_nat MAX_FILENAME_LEN →
        length (filename (g f)) = Z.to_nat MAX_FILENAME_LEN) →
  wf s → wf (set_file_table (alter g i) s).
Proof.
  intros Hg (Hm & Hp & Hf & Hps & Hfs). unfold wf. simpl.
  split_and!; try done.
  - by rewrite length_alter.
  - apply Forall_alter; [done|]. intros f _. apply Hg.
Qed.

Lemma wf_memory_allocate s : wf s → wf (memory_allocate s).2.
Proof.
  intros Hwf. unfold memory_allocate.
  destruct (first_index _ _ _); [|exact Hwf]. simpl.
  apply wf_set_memory_map; [|exact Hwf]. intros m. apply length_insert.
Qed.

Lemma wf_memory_free a s : wf s → wf (memory_free a s).
Proof.
  intros Hwf. unfold memory_free. destruct (_ <? _); [|exact Hwf].
  apply wf_set_memory_map; [|exact Hwf]. intros m. apply length_insert.
Qed.

Lemma wf_fs_create arg s : wf s → wf (fs_create arg s).2.
Proof.
  intros Hwf. unfold fs_create.
  destruct (first_index (slot_free _) _ _); [|exact Hwf].
  destruct (first_index (slot_matches _ _) _ _); [exact Hwf|]. simpl.
  apply wf_alter_file; [|exact Hwf]. intros f Hf. simpl.
  unfold copy_name. by rewrite copy_loop_length.
Qed.

Lemma wf_fs_delete arg s : wf s → wf (fs_delete arg s).2.
Proof.
  intros Hwf. unfold fs_delete.
  destruct (first_index _ _ _); [|exact Hwf]. simpl.
  apply wf_alter_file; [|exact Hwf]. intros f Hf. exact Hf.
Qed.

(** The one successful path of [process_create], spelled out. *)
Lemma process_create_cases nm s :
  (∃ e, process_create nm s = (CreateFailed e, s)) ∨
  (∃ pid blk,
     process_count s < MAX_PROCESSES ∧
     first_index (has_state PROCESS_TERMINATED (processes s))
                 (Z.to_nat MAX_PROCESSES) 0 = Some pid ∧
     first_index (block_free (memory_map s)) (Z.to_nat NUM_BLOCKS) 0 = Some blk ∧
     process_create nm s =
       (Created (Z.of_nat pid),
        mkOS (<[blk := true]> (memory_map s))
             (alter (setup_process (Z.of_nat pid)
                                   (Z.of_nat blk * PROCESS_MEMORY_SIZE) nm)
                    pid (processes s))
             (current_process s)
             (uint8 (process_count s + 1))
             (file_table s)
             (system_running s))).
Proof.
  unfold process_create.
  destruct (Z.geb_spec (process_count s) MAX_PROCESSES) as [|Hlt]; [left; eauto|].
  destruct (first_index (has_state _ _) _ _) as [pid|] eqn:Hslot; [|left; eauto].
  unfold memory_allocate.
  destruct (first_index (block_free _) _ _) as [blk|] eqn:Hblk; [|left; eauto].
  right. exists pid, blk. split_and!; try done.
  apply first_index_Some in Hblk as (Hr & _ & _).
  destruct (block_address_range blk ltac:(lia)) as [-> Hne].
  destruct (Z.eqb_spec (Z.of_nat blk * PROCESS_MEMORY_SIZE) 0xFFFF); [lia|].
  done.
Qed.

(** ** The invariant along operation sequences *)

Lemma inv_frame s s' :
  wf s' →
  processes s' = processes s →
  current_process s' = current_process s →
  process_count s' = process_count s →
  inv s → inv s'.
Proof.
  intros Hwf Hp Hc Hn (_ & Hcount & Hcur & Hrun).
  unfold inv, count_ok, running_is_current in *.
  rewrite Hp, Hc, Hn. auto.
Qed.

Lemma no_running_replicate n p :
  state p ≠ PROCESS_RUNNING →
  ∀ i, has_state PROCESS_RUNNING (replicate n p) i = false.
Proof.
  intros Hp i. apply not_true_iff_false.
  intros (q & Hq & Hst)%has_state_true.
  apply lookup_replicate in Hq as [-> _]. done.
Qed.

Lemma inv_initial : inv initial_os.
Proof.
  unfold inv. split_and!.
  - apply (bool_decide_unpack _). vm_compute. exact I.
  - reflexivity.
  - done.
  - done.
  - intros i Hi.
    change (processes initial_os)
      with (replicate 16 (set_state PROCESS_TERMINATED zero_process)) in Hi.
    rewrite no_running_replicate in Hi; done.
Qed.

Lemma inv_process_create nm s : inv s → inv (process_create nm s).2.
Proof.
  intros Hinv.
  destruct (process_create_cases nm s)
    as [[e ->] | (pid & blk & Hlt & Hslot & Hblk & ->)]; [exact Hinv|].
  destruct Hinv as (Hwf & Hcount & Hcur & Hrun). simpl.
  apply first_index_Some in Hslot as (Hpid & (p & Hp & Hterm)%has_state_true & _).
  apply first_index_Some in Hblk as (Hb & _ & _).
  unfold inv. split_and!.
  - destruct Hwf as (Hm & Hps & Hf & Hfp & Hff). unfold wf. simpl.
    split_and!; try assumption.
    + by rewrite length_insert.
    + by rewrite length_alter.
    + apply Forall_alter; [assumption|]. intros q _ [_ Hname]. simpl. split.
      * rewrite num_blocks_eq in Hb.
        unfold PROCESS_MEMORY_SIZE, MEMORY_SIZE. lia.
      * unfold copy_name. by rewrite copy_loop_length.
  - unfold count_ok in *. simpl.
    rewrite (live_count_alter _ _ _ _ Hp).
    replace (is_live p) with false by (symmetry; by apply is_live_false).
    simpl. pose proof (live_count_bounds (processes s)).
    unfold uint8. rewrite Z.mod_small; unfold MAX_PROCESSES in *; lia.
  - exact (proj1 Hcur).
  - exact (proj2 Hcur).
  - intros i Hi. simpl in Hi. apply Hrun.
    destruct (decide (pid = i)) as [->|Hne].
    + rewrite has_state_alter_eq, Hp in Hi. discriminate.
    + by rewrite has_state_alter_ne in Hi.
Qed.

Lemma inv_process_terminate pid s : 0 ≤ pid → inv s → inv (process_terminate pid s).
Proof.
  intros Hpid Hinv.
  destruct (Z.le_gt_cases MAX_PROCESSES pid) as [Hge|Hlt].
  { by rewrite (process_terminate_noop pid s (or_introl Hge)). }
  destruct Hinv as (Hwf & Hcount & Hcur & Hrun).
  assert (Hi : (Z.to_nat pid < length (processes s))%nat).
  { rewrite (wf_processes s Hwf), max_processes_eq. unfold MAX_PROCESSES in Hlt. lia. }
  destruct (lookup_lt_is_Some_2 _ _ Hi) as [p Hp].
  destruct (decide (state p = PROCESS_TERMINATED)) as [Hterm|Hlive].
  { rewrite (process_terminate_noop pid s
               (or_intror (ex_intro _ p (conj Hp Hterm)))).
    by unfold inv. }
  rewrite (process_terminate_live pid s p Hlt Hp Hlive
             (wf_memory_start s Hwf _ _ Hp)).
  destruct (terminate_count _ _ _ _ (wf_processes s Hwf) Hp Hlive Hcount)
    as [Hdec Hcnt].
  unfold inv. split_and!.
  - destruct Hwf as (Hm & Hps & Hf & Hfp & Hff). unfold wf. simpl.
    split_and!; try assumption.
    + by rewrite length_insert.
    + by rewrite length_insert.
    + apply Forall_insert; [assumption|].
      exact (proj1 (Forall_lookup _ _) Hfp _ _ Hp).
  - unfold count_ok. simpl. by rewrite Hdec.
  - exact (proj1 Hcur).
  - exact (proj2 Hcur).
  - intros i Hrunning. simpl in Hrunning. apply Hrun.
    rewrite (insert_set_state_alter _ _ _ _ Hp) in Hrunning.
    destruct (decide (Z.to_nat pid = i)) as [<-|Hne].
    + rewrite has_state_alter_eq, Hp in Hrunning. discriminate.
    + by rewrite has_state_alter_ne in Hrunning.
Qed.

(** ** The scheduler *)

Lemma live_count_set_state st i ps :
  st ≠ PROCESS_TERMINATED →
  (∀ p, ps !! i = Some p → state p ≠ PROCESS_TERMINATED) →
  live_count (alter (set_state st) i ps) = live_count ps.
Proof.
  intros Hst Hlive. destruct (ps !! i) as [p|] eqn:Hp.
  - rewrite (live_count_alter _ _ _ _ Hp).
    replace (is_live p) with true
      by (symmetry; apply is_live_true; by apply Hlive).
    replace (is_live (set_state st p)) with true
      by (symmetry; by apply is_live_true).
    lia.
  - f_equal. apply list_eq. intros j.
    destruct (decide (i = j)) as [->|Hne].
    + by rewrite list_lookup_alter_eq, Hp.
    + by rewrite list_lookup_alter_ne.
Qed.

Lemma inv_switch_to n s :
  inv s → 0 ≤ n < MAX_PROCESSES →
  has_state PROCESS_READY (processes s) (Z.to_nat n) = true →
  inv (switch_to n s).
Proof.
  intros (Hwf & Hcount & Hcur & Hrun) Hn Hready.
  set (cur := Z.to_nat (current_process s)).
  set (ps1 := if has_state PROCESS_RUNNING (processes s) cur
              then alter (set_state PROCESS_READY) cur (processes s)
              else processes s).
  assert (Hs : switch_to n s =
               mkOS (memory_map s)
                    (alter (set_state PROCESS_RUNNING) (Z.to_nat n) ps1)
                    n (process_count s) (file_table s) (system_running s)).
  { unfold switch_to, ps1, cur. by destruct (has_state PROCESS_RUNNING _ _). }
  rewrite Hs. clear Hs.
  assert (Hlen1 : length ps1 = length (processes s)).
  { unfold ps1. destruct (has_state PROCESS_RUNNING (processes s) cur);
      [apply length_alter | done]. }
  assert (Hcnt1 : live_count ps1 = live_count (processes s)).
  { unfold ps1.
    destruct (has_state PROCESS_RUNNING (processes s) cur) eqn:Hr; [|done].
    apply live_count_set_state; [done|].
    apply has_state_true in Hr as (p & Hp & Hst). intros q Hq. congruence. }
  assert (Hnorun : ∀ i, has_state PROCESS_RUNNING ps1 i = false).
  { intros i. apply not_true_iff_false. intros Hi. unfold ps1 in Hi.
    destruct (has_state PROCESS_RUNNING (processes s) cur) eqn:Hr.
    - destruct (decide (cur = i)) as [<-|Hne].
      + rewrite has_state_alter_eq in Hi.
        destruct (processes s !! cur); discriminate.
      + rewrite has_state_alter_ne in Hi by done.
        apply Hrun in Hi. unfold cur in Hne. lia.
    - pose proof (Hrun i Hi) as Hic.
      assert (i = cur) as -> by (unfold cur; lia). congruence. }
  assert (Hready1 : ∀ p, ps1 !! Z.to_nat n = Some p → state p ≠ PROCESS_TERMINATED).
  { intros p Hp. unfold ps1 in Hp.
    apply has_state_true in Hready as (q & Hq & Hst).
    destruct (has_state PROCESS_RUNNING (processes s) cur).
    - destruct (decide (cur = Z.to_nat n)) as [Heq|Hne].
      + rewrite Heq, list_lookup_alter_eq, Hq in Hp. by injection Hp as <-.
      + rewrite list_lookup_alter_ne in Hp by done. congruence.
    - congruence. }
  unfold inv. split_and!.
  - destruct Hwf as (Hm & Hps & Hf & Hfp & Hff). unfold wf. simpl.
    split_and!; try assumption.
    + by rewrite length_alter, Hlen1.
    + apply Forall_alter; [|by intros p _].
      unfold ps1.
      destruct (has_state PROCESS_RUNNING (processes s) cur); [|assumption].
      apply Forall_alter; [assumption | by intros p _].
  - unfold count_ok in *. simpl.
    by rewrite live_count_set_state, Hcnt1.
  - exact (proj1 Hn).
  - exact (proj2 Hn).
  - intros i Hi. simpl in *.
    destruct (decide (Z.to_nat n = i)) as [<-|Hne]; [lia|].
    rewrite has_state_alter_ne, Hnorun in Hi by done. discriminate.
Qed.

Lemma schedule_loop_cases fuel next s s' :
  0 ≤ next < MAX_PROCESSES →
  schedule_loop fuel next s = Some s' →
  s' = s ∨
  ∃ n, 0 ≤ n < MAX_PROCESSES ∧ n ≠ current_process s ∧
       has_state PROCESS_READY (processes s) (Z.to_nat n) = true ∧
       s' = switch_to n s.
Proof.
  revert next. induction fuel as [|fuel IH]; intros next Hnext; simpl; [done|].
  destruct (Z.eqb_spec next (current_process s)) as [|Hne].
  { intros [= <-]. by left. }
  destruct (has_state PROCESS_READY (processes s) (Z.to_nat next)) eqn:Hready.
  { intros [= <-]. right. exists next. done. }
  apply IH. apply Z.mod_pos_bound. done.
Qed.

(** The loop ends: from [next], the current slot is reached after
    [(current_process - next) mod MAX_PROCESSES] further steps. *)
Lemma schedule_loop_total fuel next s :
  0 ≤ current_process s < MAX_PROCESSES →
  0 ≤ next < MAX_PROCESSES →
  (current_process s - next) mod MAX_PROCESSES < Z.of_nat fuel →
  is_Some (schedule_loop fuel next s).
Proof.
  intros Hcur. revert next.
  induction fuel as [|fuel IH]; intros next Hnext Hdist; simpl.
  - pose proof (Z.mod_pos_bound (current_process s - next) MAX_PROCESSES).
    unfold MAX_PROCESSES in *. lia.
  - destruct (Z.eqb_spec next (current_process s)) as [|Hne]; [by eexists|].
    destruct (has_state _ _ _); [by eexists|].
    apply IH; unfold MAX_PROCESSES in *.
    + apply Z.mod_pos_bound. lia.
    + clear IH. revert Hdist.
      generalize (current_process s) Hcur Hne. intros c Hc Hnc.
      intros Hdist.
      Z.div_mod_to_equations. lia.
Qed.

Lemma process_schedule_total s :
  0 ≤ current_process s < MAX_PROCESSES → is_Some (process_schedule s).
Proof.
  intros Hcur. unfold process_schedule.
  destruct (process_count s =? 0); [by eexists|].
  apply schedule_loop_total; [done | by apply Z.mod_pos_bound |].
  unfold MAX_PROCESSES in *.
  destruct (decide (current_process s + 1 = 16)) as [Heq|].
  - rewrite Heq. change (16 mod 16) with 0.
    rewrite Z.sub_0_r, Z.mod_small; simpl; lia.
  - rewrite (Z.mod_small (current_process s + 1)) by lia.
    replace (current_process s - (current_process s + 1)) with (-1) by lia.
    done.
Qed.


Lemma inv_process_schedule s :
  inv s → ∃ s', process_schedule s = Some s' ∧ inv s'.
Proof.
  intros Hinv.
  destruct (process_schedule_total s) as [s' Hs'].
  { apply Hinv. }
  exists s'. split; [done|].
  unfold process_schedule in Hs'.
  destruct (process_count s =? 0); [by injection Hs' as <-|].
  apply schedule_loop_cases in Hs'
    as [-> | (n & Hn & _ & Hready & ->)]; [done | | by apply Z.mod_pos_bound].
  by apply inv_switch_to.
Qed.

Lemma inv_memory_allocate s : inv s → inv (memory_allocate s).2.
Proof.
  intros Hinv. apply (inv_frame s); try done.
  - apply wf_memory_allocate, Hinv.
  - unfold memory_allocate. by destruct (first_index _ _ _).
  - unfold memory_allocate. by destruct (first_index _ _ _).
  - unfold memory_allocate. by destruct (first_index _ _ _).
Qed.

Lemma inv_memory_free a s : inv s → inv (memory_free a s).
Proof.
  intros Hinv. apply (inv_frame s); try done.
  - apply wf_memory_free, Hinv.
  - unfold memory_free. by destruct (_ <? _).
  - unfold memory_free. by destruct (_ <? _).
  - unfold memory_free. by destruct (_ <? _).
Qed.

Lemma fs_create_frame arg s :
  memory_map (fs_create arg s).2 = memory_map s ∧
  processes (fs_create arg s).2 = processes s ∧
  current_process (fs_create arg s).2 = current_process s ∧
  process_count (fs_create arg s).2 = process_count s.
Proof.
  unfold fs_create.
  destruct (first_index (slot_free _) _ _); [|done].
  by destruct (first_index (slot_matches _ _) _ _).
Qed.

Lemma fs_delete_frame arg s :
  memory_map (fs_delete arg s).2 = memory_map s ∧
  processes (fs_delete arg s).2 = processes s ∧
  current_process (fs_delete arg s).2 = current_process s ∧
  process_count (fs_delete arg s).2 = process_count s.
Proof. unfold fs_delete. by destruct (first_index _ _ _). Qed.

Lemma inv_fs_create arg s : inv s → inv (fs_create arg s).2.
Proof.
  intros Hinv. destruct (fs_create_frame arg s) as (_ & ? & ? & ?).
  apply (inv_frame s); try assumption. apply wf_fs_create, Hinv.
Qed.

Lemma inv_fs_delete arg s : inv s → inv (fs_delete arg s).2.
Proof.
  intros Hinv. destruct (fs_delete_frame arg s) as (_ & ? & ? & ?).
  apply (inv_frame s); try assumption. apply wf_fs_delete, Hinv.
Qed.

Lemma inv_exec o s : inv s → ∃ s', exec o s = Some s' ∧ inv s'.
Proof.
  intros Hinv. destruct o as [|a|nm|pid| |arg|arg]; simpl.
  - eexists. split; [done|]. by apply inv_memory_allocate.
  - eexists. split; [done|]. by apply inv_memory_free.
  - eexists. split; [done|]. by apply inv_process_create.
  - eexists. split; [done|]. apply inv_process_terminate; [|done].
    unfold uint8. apply Z.mod_pos_bound. lia.
  - by apply inv_process_schedule.
  - eexists. split; [done|]. by apply inv_fs_create.
  - eexists. split; [done|]. by apply inv_fs_delete.
Qed.

(** Every operation sequence runs to completion and keeps the invariant. *)
Lemma run_inv ops s : inv s → ∃ s', run ops s = Some s' ∧ inv s'.
Proof.
  revert s. induction ops as [|o ops IH]; intros s Hinv; simpl.
  - eauto.
  - destruct (inv_exec o s Hinv) as (s1 & -> & Hinv1). by apply IH.
Qed.

Lemma running_is_current_unique s :
  running_is_current s → at_most_one_running s.
Proof.
  intros Hrun i j Hi Hj. apply Hrun in Hi, Hj. lia.
Qed.

(** C8 — at most one running process.  Every sequence of core operations
    (process create, terminate and schedule among them) applied to the
    initialised system runs to a state, and in that state no two slots are
    both [PROCESS_RUNNING]. *)
Theorem at_most_one_running_reachable (ops : list op) :
  ∃ s, run ops initial_os = Some s ∧ at_most_one_running s.
Proof.
  destruct (run_inv ops initial_os inv_initial) as (s & Hrun & Hinv).
  exists s. split; [exact Hrun|].
  apply running_is_current_unique, Hinv.
Qed.

(** C10 — the stored count is the number of live slots.  Every sequence of
    core operations (process create, terminate and schedule among them)
    applied to the initialised system runs to a state where
    [process_count] equals the number of slots that are not
    [PROCESS_TERMINATED], hence lies between 0 and [MAX_PROCESSES]. *)
Theorem process_count_reachable (ops : list op) :
  ∃ s, run ops initial_os = Some s ∧
       process_count s = live_count (processes s) ∧
       0 ≤ process_count s ≤ MAX_PROCESSES.
Proof.
  destruct (run_inv ops initial_os inv_initial)
    as (s & Hrun & Hwf & Hcount & _).
  exists s. split; [exact Hrun|]. split; [exact Hcount|].
  rewrite Hcount. pose proof (live_count_bounds (processes s)) as Hb.
  rewrite (wf_processes s Hwf), max_processes_eq in Hb.
  unfold MAX_PROCESSES. lia.
Qed.

(** ** Filling the process table *)

(** C9 — filling the process table and reusing a freed slot.  From the
    initialised system, [MAX_PROCESSES] creations (any names) succeed with
    pids 0, 1, ..., 15; one more fails at the first, table-full return and
    changes nothing; after terminating any pid [k] of the sixteen, the next
    creation succeeds and returns [k]. *)
Theorem process_table_full_then_reuse
    (names : list (list ascii)) (extra again : list ascii) (k : Z) :
  length names = Z.to_nat MAX_PROCESSES →
  0 ≤ k < MAX_PROCESSES →
  (create_all names initial_os).1 = (λ i, Created (Z.of_nat i)) <$> seq 0 16 ∧
  process_create extra (create_all names initial_os).2 =
    (CreateFailed MaxProcessesReached, (create_all names initial_os).2) ∧
  table_full MaxProcessesReached ∧
  (process_create again
     (process_terminate k (create_all names initial_os).2)).1 = Created k.
Proof.
  intros Hlen Hk. rewrite max_processes_eq in Hlen.
  do 16 (destruct names as [|? names]; [discriminate Hlen|]).
  destruct names; [clear Hlen|discriminate Hlen].
  assert (Hcases : ∃ i, (i < 16)%nat ∧ k = Z.of_nat i).
  { exists (Z.to_nat k). unfold MAX_PROCESSES in Hk. lia. }
  destruct Hcases as (i & Hi & ->). clear Hk.
  split; [lazy -[copy_name]; reflexivity|].
  split; [lazy -[copy_name]; reflexivity|].
  split; [by left|].
  do 16 (destruct i as [|i]; [lazy -[copy_name]; reflexivity|]).
  lia.
Qed.

Lemma process_table_full_then_reuse_witness :
  let names := replicate 16 (chars "p") in
  (process_create (chars "again")
     (process_terminate 5 (create_all names initial_os).2)).1 = Created 5.
Proof.
  intros names.
  assert (Hk : 0 ≤ 5 < MAX_PROCESSES) by (unfold MAX_PROCESSES; lia).
  exact (proj2 (proj2 (proj2
    (process_table_full_then_reuse names (chars "extra") (chars "again") 5
       eq_refl Hk)))).
Defined.

(** ** C strings: comparison and copy *)

Lemma char_at_tail s j : char_at s (S j) = char_at (tail s) j.
Proof. by destruct s. Qed.

Lemma match_loop_shift fuel j stored arg :
  match_loop fuel (S j) stored arg = match_loop fuel j (tail stored) (tail arg).
Proof.
  revert j. induction fuel as [|fuel IH]; intros j; simpl; [done|].
  by rewrite !char_at_tail, IH.
Qed.

Lemma ascii_eqb_refl c : Ascii.eqb c c = true.
Proof. by apply Ascii.eqb_eq. Qed.

Lemma cstring_head_nul s : cstring s = [] → is_nul (char_at s 0) = true.
Proof.
  destruct s as [|c s]; simpl; [done|].
  unfold char_at. simpl. by destruct (is_nul c).
Qed.

(** Equal names always compare equal. *)
Lemma match_loop_exact fuel stored arg :
  cstring stored = cstring arg → match_loop fuel 0 stored arg = true.
Proof.
  revert stored arg. induction fuel as [|fuel IH]; intros stored arg Heq; [done|].
  simpl. destruct (cstring stored) as [|c cs] eqn:Hs.
  - pose proof (cstring_head_nul _ Hs) as Hc.
    pose proof (cstring_head_nul _ (eq_sym Heq)) as Hd.
    unfold is_nul in *. apply Ascii.eqb_eq in Hc, Hd.
    rewrite Hc, Hd. done.
  - destruct stored as [|c' stored]; [done|].
    destruct arg as [|d arg]; [done|]. simpl in Hs, Heq.
    unfold char_at. simpl.
    destruct (is_nul c') eqn:Hc'; [done|].
    destruct (is_nul d) eqn:Hd; [done|].
    injection Hs as -> Hs. injection Heq as <- Heq.
    rewrite ascii_eqb_refl. simpl.
    rewrite match_loop_shift. simpl. apply IH. congruence.
Qed.

(** A terminated stored name compares equal only to itself. *)
Lemma match_loop_sound fuel stored arg :
  (length (cstring stored) < fuel)%nat →
  match_loop fuel 0 stored arg = true → cstring stored = cstring arg.
Proof.
  revert stored arg. induction fuel as [|fuel IH]; intros stored arg Hlen; [lia|].
  simpl. destruct (Ascii.eqb_spec (char_at stored 0) (char_at arg 0)) as [Heq|];
    [simpl | done].
  destruct stored as [|c stored], arg as [|d arg];
    unfold char_at in *; simpl in *; try done.
  - subst d. unfold is_nul at 1. by rewrite ascii_eqb_refl.
  - subst c. by destruct (is_nul NUL) eqn:E.
  - subst d. destruct (is_nul c) eqn:Hc; [done|].
    rewrite match_loop_shift. simpl. intros Hm. f_equal.
    apply IH; [simpl in Hlen; lia | done].
Qed.

Lemma name_match_iff stored arg :
  (length (cstring stored) < Z.to_nat MAX_FILENAME_LEN)%nat →
  name_match stored arg = true ↔ cstring stored = cstring arg.
Proof.
  intros Hlen. split; [by apply match_loop_sound | apply match_loop_exact].
Qed.

Lemma copy_loop_shift fuel i src d dst :
  copy_loop fuel (S i) src (d :: dst) = d :: copy_loop fuel i (tail src) dst.
Proof.
  revert i dst. induction fuel as [|fuel IH]; intros i dst; simpl; [done|].
  rewrite char_at_tail. destruct (is_nul _); [done|]. apply IH.
Qed.

(** The copy stores the argument cut to [limit] characters. *)
Lemma cstring_copy_name limit src dst :
  (limit < length dst)%nat →
  cstring (copy_name limit src dst) = take limit (cstring src).
Proof.
  unfold copy_name. revert src dst.
  induction limit as [|limit IH]; intros src dst Hlen.
  - destruct dst; simpl in *; [lia|]. done.
  - destruct dst as [|d dst]; simpl in *; [lia|].
    destruct src as [|c src]; unfold char_at; simpl; [done|].
    destruct (is_nul c) eqn:Hc; [done|]. simpl.
    rewrite copy_loop_shift. simpl. rewrite Hc. f_equal.
    apply IH. lia.
Qed.

(** ** File creation *)

Lemma slot_matches_true arg ft i :
  slot_matches arg ft i = true ↔
  ∃ f, ft !! i = Some f ∧ in_use f = true ∧ name_match (filename f) arg = true.
Proof.
  unfold slot_matches. destruct (ft !! i) as [f|].
  - rewrite andb_true_iff. split; [eauto|]. by intros (? & [= <-] & ?).
  - split; [discriminate|]. by intros (? & ? & ?).
Qed.

Lemma free_scan_Some ft i :
  length ft = Z.to_nat MAX_FILES →
  first_index (slot_free ft) (Z.to_nat MAX_FILES) 0 = Some i ↔
  lowest_free_slot ft i.
Proof.
  intros Hlen. rewrite first_index_Some, slot_free_true. split.
  - intros (Hr & Hfree & Hlow). split; [done|].
    intros j f Hj Hf. specialize (Hlow j ltac:(lia)).
    unfold slot_free in Hlow. rewrite Hf in Hlow. by apply negb_false_iff.
  - intros [(f & Hf & Hfree) Hlow].
    assert (i < length ft)%nat by (eapply lookup_lt_Some; eauto).
    split_and!; [lia | lia | eauto |].
    intros j Hj. unfold slot_free.
    destruct (ft !! j) as [g|] eqn:Hg; [|done].
    rewrite (Hlow j g); [done | lia | done].
Qed.

Lemma free_scan_None ft :
  length ft = Z.to_nat MAX_FILES →
  first_index (slot_free ft) (Z.to_nat MAX_FILES) 0 = None ↔
  ∀ i f, ft !! i = Some f → in_use f = true.
Proof.
  intros Hlen. rewrite first_index_None. split.
  - intros Hnone i f Hf.
    assert (i < length ft)%nat by (eapply lookup_lt_Some; eauto).
    specialize (Hnone i ltac:(lia)). unfold slot_free in Hnone.
    rewrite Hf in Hnone. by apply negb_false_iff.
  - intros Hall j Hj. unfold slot_free.
    destruct (ft !! j) as [g|] eqn:Hg; [|done]. by rewrite (Hall j g).
Qed.

Lemma match_scan_None arg s :
  length (file_table s) = Z.to_nat MAX_FILES →
  names_terminated s →
  first_index (slot_matches arg (file_table s)) (Z.to_nat MAX_FILES) 0 = None ↔
  ¬ name_taken arg (file_table s).
Proof.
  intros Hlen Hterm. rewrite first_index_None. split.
  - intros Hnone (k & f & Hf & Huse & Heq).
    assert (k < length (file_table s))%nat by (eapply lookup_lt_Some; eauto).
    specialize (Hnone k ltac:(lia)).
    apply not_true_iff_false in Hnone. apply Hnone.
    apply slot_matches_true. exists f. split_and!; try done.
    apply name_match_iff; [by eapply Hterm | done].
  - intros Hfree j Hj. apply not_true_iff_false.
    intros (f & Hf & Huse & Hm)%slot_matches_true.
    apply Hfree. exists j, f. split_and!; try done.
    apply name_match_iff; [by eapply Hterm | done].
Qed.

(** C7 — [fs_create] looks for a free slot before it looks for the name.
    In a well-formed state whose in-use names are terminated inside their
    buffers (every reachable state is, by [run_names_terminated]): with no
    free slot the call returns [-1] whatever the name; with a free slot and
    the name stored by an in-use entry it returns [-2]; in both cases the
    state is unchanged.  Otherwise the lowest-index free slot receives the
    name (cut to 31 characters), size 0 and the in-use flag, every other
    slot is untouched, and the slot index is returned.  A non-negative
    result is returned in no other case. *)
Theorem fs_create_spec (arg : list ascii) (s : OS) :
  wf s → names_terminated s →
  ((∀ i f, file_table s !! i = Some f → in_use f = true) →
   fs_create arg s = (-1, s)) ∧
  ((∃ i f, file_table s !! i = Some f ∧ in_use f = false) →
   name_taken arg (file_table s) →
   fs_create arg s = (-2, s)) ∧
  (∀ i, lowest_free_slot (file_table s) i →
        ¬ name_taken arg (file_table s) →
        fs_create arg s =
          (Z.of_nat i, set_file_table (alter (setup_file arg) i) s) ∧
        (∃ f, file_table (fs_create arg s).2 !! i = Some f ∧
              in_use f = true ∧ size f = 0 ∧
              cstring (filename f) = take 31 (cstring arg)) ∧
        ∀ j, j ≠ i →
             file_table (fs_create arg s).2 !! j = file_table s !! j) ∧
  (∀ id s', fs_create arg s = (id, s') → 0 ≤ id →
            (∃ i, id = Z.of_nat i ∧ lowest_free_slot (file_table s) i) ∧
            ¬ name_taken arg (file_table s)).
Proof.
  intros Hwf Hterm. pose proof (wf_file_table s Hwf) as Hlen.
  unfold fs_create.
  destruct (first_index (slot_free _) _ _) as [file_id|] eqn:Hfree.
  - apply (free_scan_Some _ _ Hlen) in Hfree.
    destruct (first_index (slot_matches _ _) _ _) as [k|] eqn:Hdup.
    + assert (Htaken : name_taken arg (file_table s)).
      { apply first_index_Some in Hdup
          as (_ & (f & Hf & Huse & Hm)%slot_matches_true & _).
        exists k, f. split_and!; try done.
        apply name_match_iff; [by eapply Hterm | done]. }
      split_and!.
      * intros Hall. destruct Hfree as [(f & Hf & Hfu) _].
        rewrite (Hall _ _ Hf) in Hfu. discriminate.
      * done.
      * intros i _ Hn. done.
      * intros id s' [= <- <-]. lia.
    + apply (match_scan_None arg s Hlen Hterm) in Hdup.
      split_and!.
      * intros Hall. destruct Hfree as [(f & Hf & Hfu) _].
        rewrite (Hall _ _ Hf) in Hfu. discriminate.
      * done.
      * intros i Hi _.
        assert (i = file_id) as ->.
        { apply (free_scan_Some _ _ Hlen) in Hi, Hfree. congruence. }
        split_and!; [done | | by intros j Hj; apply list_lookup_alter_ne].
        destruct Hfree as [(f & Hf & Hfu) _]. simpl.
        exists (setup_file arg f). rewrite list_lookup_alter_eq, Hf.
        split_and!; try done. simpl.
        apply cstring_copy_name.
        rewrite (wf_filename s Hwf _ _ Hf). change (31 < 32)%nat. lia.
      * intros id s' [= <- <-] _. split; [eauto | done].
  - split_and!.
    + done.
    + intros (i & f & Hf & Hfu).
      rewrite (proj1 (free_scan_None _ Hlen) Hfree _ _ Hf) in Hfu. discriminate.
    + intros i [(f & Hf & Hfu) _].
      rewrite (proj1 (free_scan_None _ Hlen) Hfree _ _ Hf) in Hfu. discriminate.
    + intros id s' [= <- <-]. lia.
Qed.

Lemma fs_create_cases arg s :
  wf s → names_terminated s →
  fs_create arg s = (-1, s) ∨ fs_create arg s = (-2, s) ∨
  ∃ i f, file_table s !! i = Some f ∧ in_use f = false ∧
         ¬ name_taken arg (file_table s) ∧
         fs_create arg s =
           (Z.of_nat i, set_file_table (alter (setup_file arg) i) s).
Proof.
  intros Hwf Hterm. pose proof (wf_file_table s Hwf) as Hlen.
  unfold fs_create.
  destruct (first_index (slot_free _) _ _) as [i|] eqn:Hfree; [|by left].
  destruct (first_index (slot_matches _ _) _ _) as [k|] eqn:Hdup;
    [by right; left|].
  right; right.
  apply (free_scan_Some _ _ Hlen) in Hfree as [(f & Hf & Hfu) _].
  apply (match_scan_None arg s Hlen Hterm) in Hdup.
  exists i, f. done.
Qed.

Lemma fs_delete_cases arg s :
  fs_delete arg s = (false, s) ∨
  ∃ i, fs_delete arg s = (true, set_file_table (alter (set_in_use false) i) s).
Proof.
  unfold fs_delete. destruct (first_index _ _ _) as [i|]; [right; eauto | by left].
Qed.

Lemma setup_file_name arg f :
  length (filename f) = Z.to_nat MAX_FILENAME_LEN →
  cstring (filename (setup_file arg f)) = take 31 (cstring arg).
Proof.
  intros Hlen. simpl. apply cstring_copy_name. rewrite Hlen.
  change (31 < 32)%nat. lia.
Qed.

Lemma names_terminated_fs_create arg s :
  wf s → names_terminated s → names_terminated (fs_create arg s).2.
Proof.
  intros Hwf Hterm.
  destruct (fs_create_cases arg s Hwf Hterm)
    as [-> | [-> | (i & f & Hf & Hfu & Hfresh & ->)]]; try done.
  intros j g Hg Huse. simpl in Hg.
  destruct (decide (i = j)) as [<-|Hne].
  - rewrite list_lookup_alter_eq, Hf in Hg. injection Hg as <-.
    rewrite (setup_file_name _ _ (wf_filename s Hwf _ _ Hf)).
    rewrite length_take. change (Z.to_nat MAX_FILENAME_LEN) with 32%nat. lia.
  - rewrite list_lookup_alter_ne in Hg by done. by eapply Hterm.
Qed.

Lemma unique_names_fs_create arg s :
  wf s → names_terminated s → short_name arg →
  unique_names s → unique_names (fs_create arg s).2.
Proof.
  intros Hwf Hterm Hshort Huniq.
  destruct (fs_create_cases arg s Hwf Hterm)
    as [-> | [-> | (i & f & Hf & Hfu & Hfresh & ->)]]; try done.
  assert (Hnew : cstring (filename (setup_file arg f)) = cstring arg).
  { rewrite (setup_file_name _ _ (wf_filename s Hwf _ _ Hf)).
    apply take_ge. unfold short_name in Hshort.
    change (Z.to_nat MAX_FILENAME_LEN) with 32%nat in Hshort. lia. }
  intros j k g h Hg Hh Hgu Hhu Heq. simpl in Hg, Hh.
  destruct (decide (i = j)) as [<-|Hj], (decide (i = k)) as [<-|Hk]; try done.
  - rewrite list_lookup_alter_eq, Hf in Hg. injection Hg as <-.
    rewrite list_lookup_alter_ne in Hh by done.
    exfalso. apply Hfresh. exists k, h. split_and!; try done. congruence.
  - rewrite list_lookup_alter_eq, Hf in Hh. injection Hh as <-.
    rewrite list_lookup_alter_ne in Hg by done.
    exfalso. apply Hfresh. exists j, g. split_and!; try done. congruence.
  - rewrite list_lookup_alter_ne in Hg, Hh by done. by eapply Huniq.
Qed.

Lemma lookup_cleared_in_use i j (ft : list FileEntry) g :
  alter (set_in_use false) i ft !! j = Some g → in_use g = true →
  ft !! j = Some g.
Proof.
  intros Hg Huse. destruct (decide (i = j)) as [<-|Hne].
  - rewrite list_lookup_alter_eq in Hg.
    destruct (ft !! i) as [f|]; [|done]. injection Hg as <-. done.
  - by rewrite list_lookup_alter_ne in Hg.
Qed.

Lemma names_terminated_fs_delete arg s :
  names_terminated s → names_terminated (fs_delete arg s).2.
Proof.
  intros Hterm. destruct (fs_delete_cases arg s) as [-> | [i ->]]; [done|].
  intros j g Hg Huse. simpl in Hg.
  apply lookup_cleared_in_use in Hg; [|done]. by eapply Hterm.
Qed.

Lemma unique_names_fs_delete arg s :
  unique_names s → unique_names (fs_delete arg s).2.
Proof.
  intros Huniq. destruct (fs_delete_cases arg s) as [-> | [i ->]]; [done|].
  intros j k g h Hg Hh Hgu Hhu Heq. simpl in Hg, Hh.
  apply lookup_cleared_in_use in Hg, Hh; try done. by eapply Huniq.
Qed.

(** Operations outside the file system leave the file table alone. *)
Lemma file_table_memory_allocate s :
  file_table (memory_allocate s).2 = file_table s.
Proof. unfold memory_allocate. by destruct (first_index _ _ _). Qed.

Lemma file_table_memory_free a s : file_table (memory_free a s) = file_table s.
Proof. unfold memory_free. by destruct (_ <? _). Qed.

Lemma file_table_process_create nm s :
  file_table (process_create nm s).2 = file_table s.
Proof.
  by destruct (process_create_cases nm s) as [[e ->] | (? & ? & _ & _ & _ & ->)].
Qed.

Lemma file_table_process_terminate pid s :
  file_table (process_terminate pid s) = file_table s.
Proof.
  unfold process_terminate. destruct (_ || _); [done|]. simpl.
  destruct (processes s !! Z.to_nat pid); [|done].
  apply file_table_memory_free.
Qed.

Lemma file_table_switch_to n s : file_table (switch_to n s) = file_table s.
Proof.
  unfold switch_to.
  by destruct (has_state PROCESS_RUNNING (processes s)
                 (Z.to_nat (current_process s))).
Qed.

Lemma file_table_process_schedule s s' :
  process_schedule s = Some s' → file_table s' = file_table s.
Proof.
  unfold process_schedule.
  destruct (process_count s =? 0); [by intros [= <-]|].
  intros [-> | (n & _ & _ & _ & ->)]%schedule_loop_cases;
    [done | apply file_table_switch_to | by apply Z.mod_pos_bound].
Qed.

Lemma names_terminated_frame s s' :
  file_table s' = file_table s → names_terminated s → names_terminated s'.
Proof. unfold names_terminated. by intros ->. Qed.

Lemma unique_names_frame s s' :
  file_table s' = file_table s → unique_names s → unique_names s'.
Proof. unfold unique_names. by intros ->. Qed.

Lemma names_terminated_exec o s s' :
  wf s → exec o s = Some s' → names_terminated s → names_terminated s'.
Proof.
  intros Hwf Hexec Hterm.
  destruct o as [|a|nm|pid| |arg|arg]; simpl in Hexec;
    try (injection Hexec as <-).
  - apply (names_terminated_frame s); [by apply file_table_memory_allocate | done].
  - apply (names_terminated_frame s); [by apply file_table_memory_free | done].
  - apply (names_terminated_frame s); [by apply file_table_process_create | done].
  - apply (names_terminated_frame s); [by apply file_table_process_terminate | done].
  - apply (names_terminated_frame s); [by apply file_table_process_schedule | done].
  - by apply names_terminated_fs_create.
  - by apply names_terminated_fs_delete.
Qed.

Lemma unique_names_exec o s s' :
  wf s → exec o s = Some s' → names_terminated s →
  (∀ arg, o = OpFsCreate arg → short_name arg) →
  unique_names s → unique_names s'.
Proof.
  intros Hwf Hexec Hterm Hshort Huniq.
  destruct o as [|a|nm|pid| |arg|arg]; simpl in Hexec;
    try (injection Hexec as <-).
  - apply (unique_names_frame s); [by apply file_table_memory_allocate | done].
  - apply (unique_names_frame s); [by apply file_table_memory_free | done].
  - apply (unique_names_frame s); [by apply file_table_process_create | done].
  - apply (unique_names_frame s); [by apply file_table_process_terminate | done].
  - apply (unique_names_frame s); [by apply file_table_process_schedule | done].
  - apply unique_names_fs_create; auto.
  - by apply unique_names_fs_delete.
Qed.

Lemma names_terminated_initial : names_terminated initial_os.
Proof.
  intros i f Hf Huse.
  change (file_table initial_os)
    with (replicate 32 (set_in_use false zero_file)) in Hf.
  apply lookup_replicate in Hf as [-> _]. discriminate.
Qed.

Lemma unique_names_initial : unique_names initial_os.
Proof.
  intros i j f g Hf _ Huse.
  change (file_table initial_os)
    with (replicate 32 (set_in_use false zero_file)) in Hf.
  apply lookup_replicate in Hf as [-> _]. discriminate.
Qed.

(** Along every operation sequence the stored names stay terminated. *)
Lemma run_names_terminated ops s :
  inv s → names_terminated s →
  ∃ s', run ops s = Some s' ∧ inv s' ∧ names_terminated s'.
Proof.
  revert s. induction ops as [|o ops IH]; intros s Hinv Hterm; simpl.
  - eauto.
  - destruct (inv_exec o s Hinv) as (s1 & Hexec & Hinv1). rewrite Hexec.
    apply IH; [done|].
    eapply names_terminated_exec; [apply Hinv | exact Hexec | done].
Qed.

(** As long as every created name fits the 31 characters of the name
    field, no two in-use entries store the same name. *)
Lemma run_unique_names ops s :
  inv s → names_terminated s → unique_names s → short_names ops →
  ∃ s', run ops s = Some s' ∧ unique_names s'.
Proof.
  revert s. induction ops as [|o ops IH]; intros s Hinv Hterm Huniq Hshort; simpl.
  - eauto.
  - destruct (inv_exec o s Hinv) as (s1 & Hexec & Hinv1). rewrite Hexec.
    apply IH; [done | | |].
    + eapply names_terminated_exec; [apply Hinv | exact Hexec | done].
    + eapply unique_names_exec; [apply Hinv | exact Hexec | done | | done].
      intros arg ->. apply Hshort. by left.
    + intros arg Harg. apply Hshort. by right.
Qed.

Lemma unique_names_short_reachable ops :
  short_names ops → ∃ s, run ops initial_os = Some s ∧ unique_names s.
Proof.
  apply run_unique_names;
    [apply inv_initial | apply names_terminated_initial | apply unique_names_initial].
Qed.

Lemma fs_create_spec_witness :
  fs_create (chars "a") initial_os =
    (0, set_file_table (alter (setup_file (chars "a")) 0%nat) initial_os).
Proof.
  assert (Hwf : wf initial_os)
    by (apply (bool_decide_unpack _); vm_compute; exact I).
  destruct (fs_create_spec (chars "a") initial_os Hwf names_terminated_initial)
    as (_ & _ & Hfresh & _).
  apply (Hfresh 0%nat).
  - split.
    + eexists. split; reflexivity.
    + intros j f Hj. lia.
  - intros (k & f & Hf & Huse & _).
    change (file_table initial_os)
      with (replicate 32 (set_in_use false zero_file)) in Hf.
    apply lookup_replicate in Hf as [-> _]. discriminate.
Defined.

(** C2 — uniqueness of stored names fails for names longer than the name
    field.  [fs_create] compares the whole argument with the stored names
    but stores only its first 31 characters: creating the same 32-character
    name twice succeeds twice (file ids 0 and 1), and the two in-use
    entries then hold the same 31-character name. *)
Theorem fs_create_truncated_duplicate :
  let long := chars "aaaaaaaaaabbbbbbbbbbccccccccccdd" in
  let s1 := (fs_create long initial_os).2 in
  let s2 := (fs_create long s1).2 in
  length long = 32%nat ∧
  (fs_create long initial_os).1 = 0 ∧
  (fs_create long s1).1 = 1 ∧
  run [OpFsCreate long; OpFsCreate long] initial_os = Some s2 ∧
  (∃ f g, file_table s2 !! 0%nat = Some f ∧ file_table s2 !! 1%nat = Some g ∧
          in_use f = true ∧ in_use g = true ∧
          filename f = filename g ∧
          cstring (filename f) = chars "aaaaaaaaaabbbbbbbbbbccccccccccd") ∧
  ¬ unique_names s2.
Proof.
  intros long s1 s2.
  assert (Hdup : ∃ f g, file_table s2 !! 0%nat = Some f ∧
                        file_table s2 !! 1%nat = Some g ∧
                        in_use f = true ∧ in_use g = true ∧
                        filename f = filename g ∧
                        cstring (filename f) =
                          chars "aaaaaaaaaabbbbbbbbbbccccccccccd").
  { vm_compute. do 2 eexists. split_and!; reflexivity. }
  split_and!; try reflexivity; [exact Hdup|].
  destruct Hdup as (f & g & Hf & Hg & Hfu & Hgu & Heq & _).
  intros Huniq.
  specialize (Huniq 0%nat 1%nat f g Hf Hg Hfu Hgu (f_equal cstring Heq)).
  discriminate.
Qed.

(** C1 — the scheduler never looks at the current slot.  On the freshly
    initialised system [current_process] is 0 and the first process gets
    pid 0: it is the only live process, it is ready, nothing is running,
    and [process_schedule] scans slots 1 to 15, comes back to slot 0 and
    returns with the state unchanged — pid 0 is still ready, not running. *)
Theorem schedule_skips_first_process :
  let s1 := (process_create (chars "shell") initial_os).2 in
  (process_create (chars "shell") initial_os).1 = Created 0 ∧
  has_state PROCESS_READY (processes s1) 0 = true ∧
  live_count (processes s1) = 1 ∧
  Forall (λ p, state p ≠ PROCESS_RUNNING) (processes s1) ∧
  current_process s1 = 0 ∧
  process_schedule s1 = Some s1 ∧
  has_state PROCESS_RUNNING (processes s1) 0 = false.
Proof.
  intros s1. split_and!; try reflexivity.
  apply (bool_decide_unpack _). vm_compute. exact I.
Qed.

(** ** Where the scheduler does promote the sole ready process *)

(** A ready slot [k] that the scan meets before it is back at the current
    slot is the one switched to, when no other slot is ready. *)
Lemma schedule_loop_finds fuel next s k :
  0 ≤ current_process s < MAX_PROCESSES →
  0 ≤ next < MAX_PROCESSES →
  0 ≤ k < MAX_PROCESSES →
  (∀ i, has_state PROCESS_READY (processes s) i = true ↔ i = Z.to_nat k) →
  (k - next) mod MAX_PROCESSES < (current_process s - next) mod MAX_PROCESSES →
  (k - next) mod MAX_PROCESSES < Z.of_nat fuel →
  schedule_loop fuel next s = Some (switch_to k s).
Proof.
  intros Hcur. revert next.
  induction fuel as [|fuel IH]; intros next Hnext Hk Hsole Hbefore Hfuel; simpl.
  - pose proof (Z.mod_pos_bound (k - next) MAX_PROCESSES).
    unfold MAX_PROCESSES in *. lia.
  - destruct (Z.eqb_spec next (current_process s)) as [Heq|Hne].
    { exfalso. subst next. rewrite Z.sub_diag in Hbefore.
      pose proof (Z.mod_pos_bound (k - current_process s) MAX_PROCESSES).
      unfold MAX_PROCESSES in *. change (0 mod 16) with 0 in Hbefore. lia. }
    destruct (has_state PROCESS_READY (processes s) (Z.to_nat next)) eqn:Hready.
    { apply Hsole in Hready. do 2 f_equal. lia. }
    assert (Hnk : next ≠ k).
    { intros ->. rewrite (proj2 (Hsole _) eq_refl) in Hready. discriminate. }
    apply IH; try done; unfold MAX_PROCESSES in *.
    + apply Z.mod_pos_bound. lia.
    + clear IH Hsole Hready. revert Hbefore.
      generalize (current_process s) Hcur Hne. intros c Hc Hnc Hbefore.
      Z.div_mod_to_equations. lia.
    + clear IH Hsole Hready Hbefore. Z.div_mod_to_equations. lia.
Qed.

Lemma process_schedule_no_ready s :
  0 ≤ current_process s < MAX_PROCESSES →
  (∀ i, has_state PROCESS_READY (processes s) i = false) →
  process_schedule s = Some s.
Proof.
  intros Hcur Hnone.
  destruct (process_schedule_total s Hcur) as [s' Hs']. rewrite Hs'.
  unfold process_schedule in Hs'.
  destruct (process_count s =? 0); [done|].
  apply schedule_loop_cases in Hs'
    as [-> | (n & _ & _ & Hready & _)];
    [done | | by apply Z.mod_pos_bound].
  rewrite Hnone in Hready. discriminate.
Qed.

(** The part of C1 that the code does satisfy: a sole ready process in a
    slot other than [current_process], with nothing running, is promoted to
    running and made current by one call, and a second call changes
    nothing. *)
Lemma schedule_promotes_sole_ready s k :
  inv s → 0 ≤ k < MAX_PROCESSES → k ≠ current_process s →
  (∀ i, has_state PROCESS_READY (processes s) i = true ↔ i = Z.to_nat k) →
  (∀ i, has_state PROCESS_RUNNING (processes s) i = false) →
  ∃ s1, process_schedule s = Some s1 ∧
        current_process s1 = k ∧
        has_state PROCESS_RUNNING (processes s1) (Z.to_nat k) = true ∧
        (∀ i, i ≠ Z.to_nat k →
              has_state PROCESS_RUNNING (processes s1) i = false) ∧
        process_schedule s1 = Some s1.
Proof.
  intros (Hwf & Hcount & Hcur & _) Hk Hkc Hsole Hnorun.
  assert (Hswitch : switch_to k s =
            set_processes (alter (set_state PROCESS_RUNNING) (Z.to_nat k))
                          (set_current_process k s)).
  { unfold switch_to. by rewrite Hnorun. }
  assert (Hlen : (Z.to_nat k < length (processes s))%nat).
  { rewrite (wf_processes s Hwf), max_processes_eq.
    unfold MAX_PROCESSES in Hk. lia. }
  exists (switch_to k s). split_and!.
  - unfold process_schedule.
    destruct (Z.eqb_spec (process_count s) 0) as [Hzero|_].
    { exfalso. rewrite Hcount in Hzero.
      destruct (proj1 (has_state_true _ _ _) (proj2 (Hsole _) eq_refl))
        as (p & Hp & Hst).
      assert (Hl : is_live p = true) by (apply is_live_true; congruence).
      pose proof (live_count_live_slot _ _ _ Hp Hl). lia. }
    apply schedule_loop_finds; try done; unfold MAX_PROCESSES in *.
    + apply Z.mod_pos_bound. lia.
    + revert Hkc. generalize (current_process s) Hcur. intros c Hc Hkc.
      Z.div_mod_to_equations. lia.
    + revert Hkc. generalize (current_process s) Hcur. intros c Hc Hkc.
      change (Z.of_nat (Z.to_nat 16)) with 16.
      Z.div_mod_to_equations. lia.
  - by rewrite Hswitch.
  - rewrite Hswitch. simpl. by apply has_state_alter.
  - intros i Hi. rewrite Hswitch. simpl.
    by rewrite has_state_alter_ne.
  - apply process_schedule_no_ready.
    + by rewrite Hswitch.
    + intros i. rewrite Hswitch. simpl.
      destruct (decide (Z.to_nat k = i)) as [<-|Hne].
      * rewrite has_state_alter_eq.
        by destruct (processes s !! Z.to_nat k).
      * rewrite has_state_alter_ne by done.
        apply not_true_iff_false. intros Hr. apply Hsole in Hr. done.
Qed.

Example schedule_promotes_second_slot :
  ∃ s, run [OpProcessCreate (chars "a"); OpProcessCreate (chars "b");
            OpProcessTerminate 0; OpSchedule; OpSchedule] initial_os = Some s ∧
       current_process s = 1 ∧
       has_state PROCESS_RUNNING (processes s) 1 = true ∧
       live_count (processes s) = 1.
Proof. eexists. split; [reflexivity|]. split_and!; reflexivity. Qed.


(** ** Scenarios *)

(** Create, terminate, create again: the slot and its block are reused. *)
Example create_terminate_create :
  let s1 := (process_create (chars "shell") initial_os).2 in
  let s2 := process_terminate 0 s1 in
  memory_map s1 !! 0%nat = Some true ∧
  has_state PROCESS_TERMINATED (processes s2) 0 = true ∧
  memory_map s2 !! 0%nat = Some false ∧
  process_count s2 = 0 ∧
  (process_create (chars "x") s2).1 = Created 0.
Proof. intros s1 s2. split_and!; reflexivity. Qed.

(** The same short name twice is refused; after deletion it is accepted. *)
Example create_twice_delete_create :
  let s1 := (fs_create (chars "a") initial_os).2 in
  let s2 := (fs_delete (chars "a") s1).2 in
  (fs_create (chars "a") initial_os).1 = 0 ∧
  fs_create (chars "a") s1 = (-2, s1) ∧
  (fs_delete (chars "a") s1).1 = true ∧
  (fs_create (chars "a") s2).1 = 0.
Proof. intros s1 s2. split_and!; reflexivity. Qed.

(** With two processes the scheduler alternates between them. *)
Example round_robin_two :
  ∃ s, run [OpProcessCreate (chars "a"); OpProcessCreate (chars "b");
            OpSchedule; OpSchedule] initial_os = Some s ∧
       current_process s = 0 ∧
       has_state PROCESS_RUNNING (processes s) 0 = true ∧
       has_state PROCESS_READY (processes s) 1 = true.
Proof. eexists. split; [reflexivity|]. split_and!; reflexivity. Qed.

(** * Further properties of the allocator *)

Lemma used_count_bounds m : 0 ≤ used_count m ≤ Z.of_nat (length m).
Proof. induction m as [|b m IH]; simpl; [lia|]. destruct b; lia. Qed.

Lemma used_count_insert (m : list bool) (i : nat) (b old : bool) :
  m !! i = Some old →
  used_count (<[i := b]> m) =
    used_count m - (if old then 1 else 0) + (if b then 1 else 0).
Proof.
  revert i. induction m as [|c m IH]; intros [|i] Hi; simpl in *; try done.
  - injection Hi as ->. lia.
  - rewrite (IH i Hi). lia.
Qed.

Lemma used_count_free_block m :
  used_count m < Z.of_nat (length m) ↔ ∃ i, m !! i = Some false.
Proof.
  induction m as [|b m IH]; simpl.
  - split; [lia | by intros [i ?]].
  - pose proof (used_count_bounds m) as Hb. destruct b.
    + split.
      * intros H. destruct (proj1 IH ltac:(lia)) as [i Hi]. by exists (S i).
      * intros [[|i] Hi]; [done|]. simpl in Hi.
        assert (used_count m < Z.of_nat (length m)) by (apply IH; eauto). lia.
    + split; [by exists 0%nat | lia].
Qed.

Lemma memory_allocate_cases s :
  length (memory_map s) = Z.to_nat NUM_BLOCKS →
  (memory_allocate s = (0xFFFF, s) ∧
   ∀ i, (i < Z.to_nat NUM_BLOCKS)%nat → memory_map s !! i = Some true) ∨
  (∃ i, (i < Z.to_nat NUM_BLOCKS)%nat ∧ lowest_free (memory_map s) i ∧
        memory_allocate s =
          (Z.of_nat i * PROCESS_MEMORY_SIZE,
           set_memory_map (λ m, <[i := true]> m) s)).
Proof.
  intros Hlen. unfold memory_allocate.
  destruct (first_index _ _ _) as [i|] eqn:Hscan.
  - right. destruct (first_index_lowest_free _ _ Hlen Hscan) as [Hi Hlow].
    exists i. destruct (block_address_range i Hi) as [-> _]. done.
  - left. split; [done|]. intros i Hi.
    rewrite first_index_None in Hscan.
    apply block_free_false; [lia|]. apply Hscan. lia.
Qed.

Lemma block_index_of_address i :
  Z.of_nat i * PROCESS_MEMORY_SIZE / PROCESS_MEMORY_SIZE = Z.of_nat i.
Proof. apply Z.div_mul. done. Qed.

Lemma set_memory_map_id s m :
  m = memory_map s → set_memory_map (λ _, m) s = s.
Proof. intros ->. by destruct s. Qed.

(** X1 — allocate then free is the identity.  When [memory_allocate]
    succeeds, freeing the address it returned gives back the state before
    the allocation. *)
Theorem memory_allocate_free_roundtrip (s : OS) :
  length (memory_map s) = Z.to_nat NUM_BLOCKS →
  (memory_allocate s).1 ≠ 0xFFFF →
  memory_free (memory_allocate s).1 (memory_allocate s).2 = s.
Proof.
  intros Hlen Hok.
  destruct (memory_allocate_cases s Hlen) as [[Hfail _] | (i & Hi & Hlow & Heq)].
  { rewrite Hfail in Hok. done. }
  rewrite Heq. simpl. unfold memory_free.
  rewrite block_index_of_address, Nat2Z.id.
  rewrite num_blocks_eq in Hi.
  destruct (Z.ltb_spec (Z.of_nat i) NUM_BLOCKS) as [_|Hge];
    [|change NUM_BLOCKS with 16 in Hge; lia].
  destruct s as [m ps c n ft r]. unfold set_memory_map. simpl in *.
  f_equal. rewrite list_insert_insert_eq. apply list_insert_id, Hlow.
Qed.

Lemma memory_allocate_free_roundtrip_witness :
  memory_free (memory_allocate initial_os).1 (memory_allocate initial_os).2 =
    initial_os.
Proof.
  apply (memory_allocate_free_roundtrip initial_os eq_refl).
  vm_compute. discriminate.
Defined.

(** X2 — free then allocate.  After [memory_free] of any 16-bit address the
    next [memory_allocate] succeeds, with an address no higher than the
    start of the block just freed. *)
Theorem memory_free_then_allocate (s : OS) (off : Z) :
  length (memory_map s) = Z.to_nat NUM_BLOCKS →
  0 ≤ off < MEMORY_SIZE →
  (memory_allocate (memory_free off s)).1 ≠ 0xFFFF ∧
  (memory_allocate (memory_free off s)).1 ≤
    off / PROCESS_MEMORY_SIZE * PROCESS_MEMORY_SIZE.
Proof.
  intros Hlen [Hlo Hhi].
  destruct (memory_free_block_range off Hlo) as [Hb0 Hb1]. specialize (Hb1 Hhi).
  set (b := off / PROCESS_MEMORY_SIZE) in *.
  assert (Hfree : memory_free off s =
                  set_memory_map (λ m, <[Z.to_nat b := false]> m) s).
  { unfold memory_free. fold b. by destruct (Z.ltb_spec b NUM_BLOCKS); [|lia]. }
  assert (Hbn : (Z.to_nat b < 16)%nat) by (change NUM_BLOCKS with 16 in Hb1; lia).
  assert (Hlen' : length (memory_map (memory_free off s)) = Z.to_nat NUM_BLOCKS).
  { rewrite Hfree. simpl. by rewrite length_insert. }
  assert (Hb : memory_map (memory_free off s) !! Z.to_nat b = Some false).
  { rewrite Hfree. simpl. apply list_lookup_insert_eq.
    rewrite Hlen, num_blocks_eq. lia. }
  destruct (memory_allocate_cases _ Hlen') as [[_ Hall] | (i & Hi & [Hif Hlow] & ->)].
  { rewrite Hall in Hb by (rewrite num_blocks_eq; lia). discriminate. }
  simpl. destruct (block_address_range i Hi) as [_ Hne].
  split; [lia|].
  assert (i ≤ Z.to_nat b)%nat.
  { destruct (decide (i ≤ Z.to_nat b)%nat) as [|Hgt]; [done|].
    rewrite Hlow in Hb by lia. discriminate. }
  unfold PROCESS_MEMORY_SIZE. lia.
Qed.

Lemma memory_free_then_allocate_witness :
  (memory_allocate (memory_free 0xFFFF initial_os)).1 ≠ 0xFFFF.
Proof.
  assert (Hoff : 0 ≤ 0xFFFF < MEMORY_SIZE) by (unfold MEMORY_SIZE; lia).
  exact (proj1 (memory_free_then_allocate initial_os 0xFFFF eq_refl Hoff)).
Defined.

(** X3 — the count of used blocks.  It lies between 0 and the number of
    blocks; [memory_allocate] fails exactly when it has reached that
    number and otherwise raises it by one; [memory_free] lowers it by one
    when the block of the address was used and leaves it alone when the
    block was already free. *)
Theorem allocator_accounting (s : OS) (off : Z) :
  length (memory_map s) = Z.to_nat NUM_BLOCKS →
  0 ≤ off < MEMORY_SIZE →
  0 ≤ used_count (memory_map s) ≤ NUM_BLOCKS ∧
  ((memory_allocate s).1 = 0xFFFF ↔ used_count (memory_map s) = NUM_BLOCKS) ∧
  ((memory_allocate s).1 ≠ 0xFFFF →
   used_count (memory_map (memory_allocate s).2) =
     used_count (memory_map s) + 1) ∧
  used_count (memory_map (memory_free off s)) =
    used_count (memory_map s) -
    match memory_map s !! Z.to_nat (off / PROCESS_MEMORY_SIZE) with
    | Some true => 1
    | _ => 0
    end.
Proof.
  intros Hlen [Hlo Hhi].
  pose proof (used_count_bounds (memory_map s)) as Hb.
  pose proof (used_count_free_block (memory_map s)) as Hfb.
  rewrite Hlen, num_blocks_eq in Hb, Hfb. change NUM_BLOCKS with 16.
  split_and!; [lia | lia | | |].
  - destruct (memory_allocate_cases s Hlen)
      as [[-> Hall] | (i & Hi & [Hif Hlow] & ->)]; simpl.
    + split; [intros _ | done].
      destruct (decide (used_count (memory_map s) = 16)) as [|Hne]; [done|].
      destruct (proj1 Hfb ltac:(lia)) as [j Hj].
      assert (j < length (memory_map s))%nat by (eapply lookup_lt_Some; eauto).
      rewrite Hall in Hj by lia. discriminate.
    + destruct (block_address_range i Hi) as [_ Hne].
      split; [lia|]. intros Hfull.
      assert (used_count (memory_map s) < 16) by (apply Hfb; eauto). lia.
  - destruct (memory_allocate_cases s Hlen)
      as [[-> Hall] | (i & Hi & [Hif Hlow] & ->)]; simpl; [done|].
    intros _. rewrite (used_count_insert _ _ _ _ Hif). lia.
  - destruct (memory_free_block_range off Hlo) as [Hb0 Hb1]. specialize (Hb1 Hhi).
    unfold memory_free.
    destruct (Z.ltb_spec (off / PROCESS_MEMORY_SIZE) NUM_BLOCKS); [|lia]. simpl.
    destruct (memory_map s !! Z.to_nat (off / PROCESS_MEMORY_SIZE))
      as [old|] eqn:Hold.
    + rewrite (used_count_insert _ _ _ _ Hold). destruct old; lia.
    + apply lookup_ge_None in Hold. rewrite list_insert_ge by done. lia.
Qed.

Lemma allocator_accounting_witness :
  used_count (memory_map (memory_allocate initial_os).2) =
    used_count (memory_map initial_os) + 1.
Proof.
  assert (Hoff : 0 ≤ 0 < MEMORY_SIZE) by (unfold MEMORY_SIZE; lia).
  destruct (allocator_accounting initial_os 0 eq_refl Hoff) as (_ & _ & H & _).
  apply H. vm_compute. discriminate.
Defined.

(** * Further properties of the process table *)

Lemma live_count_dead_exists ps :
  live_count ps < Z.of_nat (length ps) ↔
  ∃ i p, ps !! i = Some p ∧ is_live p = false.
Proof.
  split.
  - induction ps as [|q ps IH]; simpl; [lia|].
    destruct (is_live q) eqn:Hq.
    + intros H. destruct (IH ltac:(lia)) as (i & p & Hp & Hd).
      by exists (S i), p.
    + intros _. by exists 0%nat, q.
  - intros (i & p & Hp & Hd). by eapply live_count_dead_slot.
Qed.

Lemma process_create_succeeds nm s :
  length (processes s) = Z.to_nat MAX_PROCESSES →
  length (memory_map s) = Z.to_nat NUM_BLOCKS →
  process_count s < MAX_PROCESSES →
  (∃ i p, processes s !! i = Some p ∧ state p = PROCESS_TERMINATED) →
  (∃ b, memory_map s !! b = Some false) →
  ∃ pid, (process_create nm s).1 = Created pid.
Proof.
  intros Hlp Hlm Hcount (i & p & Hp & Hterm) (b & Hb).
  destruct (process_create_cases nm s)
    as [[e Hfail] | (pid & blk & _ & _ & _ & ->)]; [|eauto].
  exfalso. revert Hfail. unfold process_create.
  destruct (Z.geb_spec (process_count s) MAX_PROCESSES) as [|_]; [lia|].
  destruct (first_index (has_state _ _) _ _) as [pid|] eqn:Hslot.
  - destruct (memory_allocate_cases s Hlm) as [[_ Hall] | (j & Hj & _ & ->)].
    + assert (b < length (memory_map s))%nat by (eapply lookup_lt_Some; eauto).
      rewrite Hall in Hb by lia. discriminate.
    + destruct (block_address_range j Hj) as [_ Hne].
      destruct (Z.eqb_spec (Z.of_nat j * PROCESS_MEMORY_SIZE) 0xFFFF); [lia|].
      discriminate.
  - rewrite first_index_None in Hslot.
    assert (i < length (processes s))%nat by (eapply lookup_lt_Some; eauto).
    specialize (Hslot i ltac:(lia)). apply not_true_iff_false in Hslot.
    exfalso. apply Hslot. apply has_state_true. eauto.
Qed.

(** X4 — what a successful [process_create] leaves behind.  The pid
    returned is the lowest-index terminated slot; the block taken is the
    lowest-index free one.  The slot then holds its own index as id, state
    ready, that block's address, one block as size, program counter 0 and
    the name cut to 31 characters; every other slot, the current process
    and the file table are untouched, and the count has gone up by one. *)
Theorem process_create_success (nm : list ascii) (s s' : OS) (pid : Z) :
  wf s → 0 ≤ process_count s →
  process_create nm s = (Created pid, s') →
  ∃ i b p',
    pid = Z.of_nat i ∧
    has_state PROCESS_TERMINATED (processes s) i = true ∧
    (∀ j, (j < i)%nat → has_state PROCESS_TERMINATED (processes s) j = false) ∧
    lowest_free (memory_map s) b ∧
    memory_map s' = <[b := true]> (memory_map s) ∧
    processes s' !! i = Some p' ∧
    id p' = pid ∧ state p' = PROCESS_READY ∧
    memory_start p' = Z.of_nat b * PROCESS_MEMORY_SIZE ∧
    memory_size p' = PROCESS_MEMORY_SIZE ∧ program_counter p' = 0 ∧
    cstring (name p') = take 31 (cstring nm) ∧
    (∀ j, j ≠ i → processes s' !! j = processes s !! j) ∧
    process_count s' = process_count s + 1 ∧
    current_process s' = current_process s ∧
    file_table s' = file_table s ∧
    system_running s' = system_running s.
Proof.
  intros Hwf Hc0 Hcreate.
  destruct (process_create_cases nm s)
    as [[e Hfail] | (i & b & Hlt & Hslot & Hblk & Heq)]; [congruence|].
  rewrite Heq in Hcreate. injection Hcreate as <- <-.
  apply first_index_Some in Hslot as (Hi & Hterm & Hlow).
  destruct (first_index_lowest_free _ _ (wf_memory_map s Hwf) Hblk) as [Hb Hfree].
  destruct (proj1 (has_state_true _ _ _) Hterm) as (p & Hp & Hst).
  exists i, b, (setup_process (Z.of_nat i) (Z.of_nat b * PROCESS_MEMORY_SIZE) nm p).
  simpl. split_and!; try done.
  - intros j Hj. apply Hlow. lia.
  - by rewrite list_lookup_alter_eq, Hp.
  - apply cstring_copy_name.
    destruct Hwf as (_ & _ & _ & Hfp & _).
    destruct (proj1 (Forall_lookup _ _) Hfp _ _ Hp) as [_ ->]. lia.
  - intros j Hj. by apply list_lookup_alter_ne.
  - unfold uint8. apply Z.mod_small. unfold MAX_PROCESSES in Hlt. lia.
Qed.

Lemma process_create_success_witness :
  ∃ i b p',
    (0 : Z) = Z.of_nat i ∧
    has_state PROCESS_TERMINATED (processes initial_os) i = true ∧
    (∀ j, (j < i)%nat →
          has_state PROCESS_TERMINATED (processes initial_os) j = false) ∧
    lowest_free (memory_map initial_os) b ∧
    memory_map (process_create (chars "shell") initial_os).2 =
      <[b := true]> (memory_map initial_os) ∧
    processes (process_create (chars "shell") initial_os).2 !! i = Some p' ∧
    id p' = 0 ∧ state p' = PROCESS_READY ∧
    memory_start p' = Z.of_nat b * PROCESS_MEMORY_SIZE ∧
    memory_size p' = PROCESS_MEMORY_SIZE ∧ program_counter p' = 0 ∧
    cstring (name p') = take 31 (cstring (chars "shell")) ∧
    (∀ j, j ≠ i →
          processes (process_create (chars "shell") initial_os).2 !! j =
            processes initial_os !! j) ∧
    process_count (process_create (chars "shell") initial_os).2 =
      process_count initial_os + 1 ∧
    current_process (process_create (chars "shell") initial_os).2 =
      current_process initial_os ∧
    file_table (process_create (chars "shell") initial_os).2 =
      file_table initial_os ∧
    system_running (process_create (chars "shell") initial_os).2 =
      system_running initial_os.
Proof.
  assert (Hwf : wf initial_os)
    by (apply (bool_decide_unpack _); vm_compute; exact I).
  assert (Hc : 0 ≤ process_count initial_os) by (vm_compute; discriminate).
  apply (process_create_success (chars "shell") initial_os _ 0 Hwf Hc).
  reflexivity.
Defined.

(** ** What the scheduler does to the table *)

Lemma rescheduled_fields p p' :
  rescheduled p p' →
  id p' = id p ∧ memory_start p' = memory_start p ∧
  memory_size p' = memory_size p ∧ program_counter p' = program_counter p ∧
  name p' = name p ∧ is_live p' = is_live p ∧
  (state p = PROCESS_TERMINATED ∨ state p = PROCESS_BLOCKED → p' = p).
Proof.
  intros [-> | [[Hst ->] | [Hst ->]]]; simpl; split_and!; try done.
  - unfold is_live. simpl. by rewrite Hst.
  - intros [? | ?]; congruence.
  - unfold is_live. simpl. by rewrite Hst.
  - intros [? | ?]; congruence.
Qed.

Lemma switch_to_slots n s :
  has_state PROCESS_READY (processes s) (Z.to_nat n) = true →
  Forall2 rescheduled (processes s) (processes (switch_to n s)).
Proof.
  intros Hready.
  apply has_state_true in Hready as (q & Hq & Hqs).
  unfold switch_to.
  set (c := Z.to_nat (current_process s)).
  destruct (has_state PROCESS_RUNNING (processes s) c) eqn:Hr; simpl.
  - apply has_state_true in Hr as (r & Hrc & Hrs).
    assert (Hne : c ≠ Z.to_nat n) by (intros Heq; rewrite Heq in Hrc; congruence).
    apply Forall2_same_length_lookup_2; [by rewrite !length_alter|].
    intros i p p' Hp Hp'.
    rewrite list_lookup_alter in Hp'. destruct (decide (Z.to_nat n = i)) as [<-|Hni].
    + rewrite list_lookup_alter_ne, Hq in Hp' by done.
      injection Hp' as <-. right; left. split; congruence.
    + rewrite list_lookup_alter in Hp'. destruct (decide (c = i)) as [<-|Hci].
      * rewrite Hrc in Hp'. injection Hp' as <-. right; right.
        split; congruence.
      * left. congruence.
  - apply Forall2_same_length_lookup_2; [by rewrite length_alter|].
    intros i p p' Hp Hp'.
    rewrite list_lookup_alter in Hp'. destruct (decide (Z.to_nat n = i)) as [<-|Hni].
    + rewrite Hq in Hp'. injection Hp' as <-. right; left. split; congruence.
    + left. congruence.
Qed.

Lemma rescheduled_refl ps : Forall2 rescheduled ps ps.
Proof. apply Forall_Forall2_diag, Forall_forall. intros p _. by left. Qed.

Lemma process_schedule_slots s s' :
  process_schedule s = Some s' →
  Forall2 rescheduled (processes s) (processes s') ∧
  memory_map s' = memory_map s ∧
  process_count s' = process_count s ∧
  file_table s' = file_table s ∧
  system_running s' = system_running s.
Proof.
  unfold process_schedule.
  destruct (process_count s =? 0).
  { intros [= <-]. split_and!; try done. apply rescheduled_refl. }
  intros [-> | (n & _ & _ & Hready & ->)]%schedule_loop_cases;
    [| | by apply Z.mod_pos_bound].
  { split_and!; try done. apply rescheduled_refl. }
  split; [by apply switch_to_slots|].
  unfold switch_to.
  by destruct (has_state PROCESS_RUNNING (processes s)
                 (Z.to_nat (current_process s))).
Qed.

(** X5 — the scheduler only moves slots between ready and running.  After
    [process_schedule], every slot is either as it was, or went from ready
    to running, or from running to ready, with all its other fields kept;
    terminated and blocked slots are untouched, and so are the bitmap, the
    count, the file table and the running flag. *)
Theorem process_schedule_frame (s s' : OS) :
  process_schedule s = Some s' →
  length (processes s') = length (processes s) ∧
  (∀ i p, processes s !! i = Some p →
     ∃ p', processes s' !! i = Some p' ∧
           rescheduled p p' ∧
           id p' = id p ∧ memory_start p' = memory_start p ∧
           memory_size p' = memory_size p ∧
           program_counter p' = program_counter p ∧ name p' = name p ∧
           is_live p' = is_live p ∧
           (state p = PROCESS_TERMINATED ∨ state p = PROCESS_BLOCKED → p' = p)) ∧
  memory_map s' = memory_map s ∧
  process_count s' = process_count s ∧
  file_table s' = file_table s ∧
  system_running s' = system_running s.
Proof.
  intros (Hslots & Hm & Hc & Hf & Hr)%process_schedule_slots.
  split_and!; try done.
  - symmetry. by eapply Forall2_length.
  - intros i p Hp.
    destruct (Forall2_lookup_l _ _ _ _ _ Hslots Hp) as (p' & Hp' & Hrel).
    exists p'. split; [done|]. split; [done|].
    by apply rescheduled_fields.
Qed.

Lemma process_schedule_frame_witness :
  let s := (process_create (chars "b")
              (process_create (chars "a") initial_os).2).2 in
  ∃ s', process_schedule s = Some s' ∧
        memory_map s' = memory_map s ∧ process_count s' = process_count s.
Proof.
  intros s.
  assert (H : process_schedule s = Some (switch_to 1 s)) by reflexivity.
  exists (switch_to 1 s). split; [exact H|].
  destruct (process_schedule_frame s _ H) as (_ & _ & Hm & Hc & _).
  split; [exact Hm | exact Hc].
Defined.

(** ** Which process holds which block *)

Lemma live_count_rescheduled ps ps' :
  Forall2 rescheduled ps ps' → live_count ps' = live_count ps.
Proof.
  induction 1 as [|p p' ps ps' Hrel _ IH]; simpl; [done|].
  destruct (rescheduled_fields _ _ Hrel) as (_ & _ & _ & _ & _ & -> & _). lia.
Qed.

Lemma block_of_rescheduled p p' : rescheduled p p' → block_of p' = block_of p.
Proof.
  intros Hrel. unfold block_of.
  by destruct (rescheduled_fields _ _ Hrel) as (_ & -> & _).
Qed.

Lemma mem_inv_rescheduled s s' :
  memory_map s' = memory_map s →
  Forall2 rescheduled (processes s) (processes s') →
  mem_inv s → mem_inv s'.
Proof.
  intros Hm Hrel (Hown & Hdis & Hused & Hcnt). unfold mem_inv. split_and!.
  - intros i p' Hp' Hl.
    destruct (Forall2_lookup_r _ _ _ _ _ Hrel Hp') as (p & Hp & Hr).
    destruct (rescheduled_fields _ _ Hr) as (_ & Hms & _ & _ & _ & Hlive & _).
    rewrite Hm, (block_of_rescheduled _ _ Hr), Hms.
    apply (Hown i p Hp). congruence.
  - intros i j p' q' Hp' Hq' Hlp Hlq Hb.
    destruct (Forall2_lookup_r _ _ _ _ _ Hrel Hp') as (p & Hp & Hrp).
    destruct (Forall2_lookup_r _ _ _ _ _ Hrel Hq') as (q & Hq & Hrq).
    destruct (rescheduled_fields _ _ Hrp) as (_ & _ & _ & _ & _ & Hlive1 & _).
    destruct (rescheduled_fields _ _ Hrq) as (_ & _ & _ & _ & _ & Hlive2 & _).
    rewrite (block_of_rescheduled _ _ Hrp), (block_of_rescheduled _ _ Hrq) in Hb.
    apply (Hdis i j p q); congruence.
  - intros b Hb. rewrite Hm in Hb.
    destruct (Hused b Hb) as (i & p & Hp & Hl & Hbp).
    destruct (Forall2_lookup_l _ _ _ _ _ Hrel Hp) as (p' & Hp' & Hr).
    destruct (rescheduled_fields _ _ Hr) as (_ & _ & _ & _ & _ & Hlive & _).
    exists i, p'. split_and!; [done | congruence |].
    by rewrite (block_of_rescheduled _ _ Hr).
  - by rewrite Hm, (live_count_rescheduled _ _ Hrel).
Qed.

Lemma mem_inv_frame s s' :
  memory_map s' = memory_map s → processes s' = processes s →
  mem_inv s → mem_inv s'.
Proof.
  intros Hm Hp. apply mem_inv_rescheduled; [done|].
  rewrite Hp. apply rescheduled_refl.
Qed.

Lemma mem_inv_initial : mem_inv initial_os.
Proof.
  assert (Hdead : ∀ i p, processes initial_os !! i = Some p → is_live p = false).
  { intros i p Hp.
    change (processes initial_os)
      with (replicate 16 (set_state PROCESS_TERMINATED zero_process)) in Hp.
    by apply lookup_replicate in Hp as [-> _]. }
  unfold mem_inv. split_and!.
  - intros i p Hp Hl. rewrite (Hdead i p Hp) in Hl. discriminate.
  - intros i j p q Hp _ Hl. rewrite (Hdead i p Hp) in Hl. discriminate.
  - intros b Hb.
    change (memory_map initial_os) with (replicate 16 false) in Hb.
    apply lookup_replicate in Hb as [? _]. discriminate.
  - reflexivity.
Qed.

Lemma block_of_setup pid nm p b :
  block_of (setup_process pid (Z.of_nat b * PROCESS_MEMORY_SIZE) nm p) = b.
Proof. unfold block_of. simpl. rewrite block_index_of_address. lia. Qed.

Lemma mem_inv_process_create nm s :
  wf s → mem_inv s → mem_inv (process_create nm s).2.
Proof.
  intros Hwf (Hown & Hdis & Hused & Hcnt).
  destruct (process_create_cases nm s)
    as [[e ->] | (pid & blk & Hlt & Hslot & Hblk & ->)]; [done|]. simpl.
  apply first_index_Some in Hslot as (Hpid & (p0 & Hp0 & Hterm)%has_state_true & _).
  destruct (first_index_lowest_free _ _ (wf_memory_map s Hwf) Hblk)
    as [Hb [Hfree _]].
  assert (Hbl : (blk < length (memory_map s))%nat)
    by (eapply lookup_lt_Some; eauto).
  assert (Hdead0 : is_live p0 = false) by by apply is_live_false.
  unfold mem_inv, owns_block, disjoint_blocks, used_owned. simpl. split_and!.
  - intros i p Hp Hl. rewrite list_lookup_alter in Hp.
    destruct (decide (pid = i)) as [<-|Hne].
    + rewrite Hp0 in Hp. injection Hp as <-. rewrite block_of_setup.
      split; [done|]. by apply list_lookup_insert_eq.
    + destruct (Hown i p Hp Hl) as [Hms Hu]. split; [done|].
      rewrite list_lookup_insert. case_decide; [|done].
      destruct H as [_ Hlen]. congruence.
  - intros i j p q Hp Hq Hlp Hlq Hbeq. rewrite list_lookup_alter in Hp, Hq.
    destruct (decide (pid = i)) as [<-|Hi], (decide (pid = j)) as [<-|Hj];
      try done.
    + rewrite Hp0 in Hp. injection Hp as <-. rewrite block_of_setup in Hbeq.
      destruct (Hown j q Hq Hlq) as [_ Hu]. congruence.
    + rewrite Hp0 in Hq. injection Hq as <-. rewrite block_of_setup in Hbeq.
      destruct (Hown i p Hp Hlp) as [_ Hu]. congruence.
    + by eapply Hdis.
  - intros b Hbu. rewrite list_lookup_insert in Hbu. case_decide as Hc.
    + destruct Hc as [<- _]. exists pid. eexists.
      rewrite list_lookup_alter_eq, Hp0. split_and!; [done | done |].
      apply block_of_setup.
    + destruct (Hused b Hbu) as (i & p & Hp & Hl & Hbp).
      exists i, p. split_and!; try done.
      rewrite list_lookup_alter_ne; [done|]. intros <-. congruence.
  - rewrite (used_count_insert _ _ _ _ Hfree), (live_count_alter _ _ _ _ Hp0).
    rewrite Hdead0. simpl. lia.
Qed.

Lemma lookup_insert_terminated (ps : list Process) (k i : nat) p q :
  <[k := set_state PROCESS_TERMINATED p]> ps !! i = Some q →
  is_live q = true → k ≠ i ∧ ps !! i = Some q.
Proof.
  intros Hq Hl. rewrite list_lookup_insert in Hq. case_decide as Hc.
  - injection Hq as <-. discriminate.
  - destruct (decide (k = i)) as [<-|Hne]; [|done].
    apply lookup_lt_Some in Hq. exfalso. by apply Hc.
Qed.

Lemma mem_inv_process_terminate pid s :
  0 ≤ pid → wf s → mem_inv s → mem_inv (process_terminate pid s).
Proof.
  intros Hpid Hwf Hinv.
  destruct (Z.le_gt_cases MAX_PROCESSES pid) as [Hge|Hlt].
  { by rewrite (process_terminate_noop pid s (or_introl Hge)). }
  assert (Hi : (Z.to_nat pid < length (processes s))%nat).
  { rewrite (wf_processes s Hwf), max_processes_eq. unfold MAX_PROCESSES in Hlt. lia. }
  destruct (lookup_lt_is_Some_2 _ _ Hi) as [p Hp].
  destruct (decide (state p = PROCESS_TERMINATED)) as [Hterm|Hlive].
  { by rewrite (process_terminate_noop pid s
                  (or_intror (ex_intro _ p (conj Hp Hterm)))). }
  rewrite (process_terminate_live pid s p Hlt Hp Hlive
             (wf_memory_start s Hwf _ _ Hp)).
  destruct Hinv as (Hown & Hdis & Hused & Hcnt).
  assert (Hl : is_live p = true) by by apply is_live_true.
  destruct (Hown _ _ Hp Hl) as [_ Hpu]. fold (block_of p).
  assert (Hbl : (block_of p < length (memory_map s))%nat)
    by (eapply lookup_lt_Some; eauto).
  unfold mem_inv, owns_block, disjoint_blocks, used_owned. simpl. split_and!.
  - intros i q Hq Hlq.
    apply lookup_insert_terminated in Hq as [Hne Hq]; [|done].
    destruct (Hown i q Hq Hlq) as [Hms Hu]. split; [done|].
    rewrite list_lookup_insert_ne; [done|].
    intros Hb. by apply (Hdis _ _ _ _ Hp Hq Hl Hlq) in Hb.
  - intros i j q r Hq Hr Hlq Hlr Hb.
    apply lookup_insert_terminated in Hq as [_ Hq]; [|done].
    apply lookup_insert_terminated in Hr as [_ Hr]; [|done].
    by eapply Hdis.
  - intros b Hbu. rewrite list_lookup_insert in Hbu. case_decide as Hc; [done|].
    destruct (Hused b Hbu) as (i & q & Hq & Hlq & Hbq).
    exists i, q. split_and!; try done.
    rewrite list_lookup_insert_ne; [done|]. intros <-.
    apply Hc. split; [congruence | done].
  - rewrite (used_count_insert _ _ _ _ Hpu).
    destruct (terminate_count _ _ _ _ (wf_processes s Hwf) Hp Hlive eq_refl)
      as [_ <-]. lia.
Qed.

Lemma mem_inv_exec o s s' :
  table_op o = true → inv s → mem_inv s → exec o s = Some s' → mem_inv s'.
Proof.
  intros Hop Hinv Hmem Hexec.
  destruct o as [|a|nm|pid| |arg|arg]; simpl in Hexec, Hop; try done;
    try (injection Hexec as <-).
  - apply mem_inv_process_create; [apply Hinv | done].
  - apply mem_inv_process_terminate; [|apply Hinv | done].
    unfold uint8. apply Z.mod_pos_bound. lia.
  - apply process_schedule_slots in Hexec as (Hslots & Hm & _).
    by apply (mem_inv_rescheduled s).
  - destruct (fs_create_frame arg s) as (Hm & Hp & _).
    by apply (mem_inv_frame s).
  - destruct (fs_delete_frame arg s) as (Hm & Hp & _).
    by apply (mem_inv_frame s).
Qed.

Lemma run_mem_inv ops s :
  forallb table_op ops = true → inv s → mem_inv s →
  ∃ s', run ops s = Some s' ∧ inv s' ∧ mem_inv s'.
Proof.
  revert s. induction ops as [|o ops IH]; intros s Hops Hinv Hmem; simpl.
  - eauto.
  - simpl in Hops. apply andb_true_iff in Hops as [Ho Hops].
    destruct (inv_exec o s Hinv) as (s1 & Hexec & Hinv1). rewrite Hexec.
    apply IH; [done | done |]. exact (mem_inv_exec o s s1 Ho Hinv Hmem Hexec).
Qed.

(** X6 — who holds the blocks.  As long as the allocator is reached only
    through [process_create] and [process_terminate] (any sequence of
    process, scheduler and file operations from the initialised system):
    every live process starts at the boundary of a block marked used, no
    two live processes hold the same block, every block marked used is held
    by a live process, and the number of used blocks is the process
    count. *)
Theorem blocks_owned_by_live_processes (ops : list op) :
  forallb table_op ops = true →
  ∃ s, run ops initial_os = Some s ∧
       owns_block s ∧ disjoint_blocks s ∧ used_owned s ∧
       used_count (memory_map s) = process_count s.
Proof.
  intros Hops.
  destruct (run_mem_inv ops initial_os Hops inv_initial mem_inv_initial)
    as (s & Hrun & Hinv & Hown & Hdis & Hused & Hcnt).
  exists s. split_and!; try done.
  destruct Hinv as (_ & Hc & _). by rewrite Hc.
Qed.

Lemma blocks_owned_by_live_processes_witness :
  ∃ s, run [OpProcessCreate (chars "a"); OpProcessCreate (chars "b");
            OpProcessTerminate 0; OpSchedule; OpFsCreate (chars "f")]
           initial_os = Some s ∧
       owns_block s ∧ disjoint_blocks s ∧ used_owned s ∧
       used_count (memory_map s) = process_count s.
Proof. apply blocks_owned_by_live_processes. reflexivity. Defined.

(** X7 — creation fails only on a full table.  In every state reached as
    in X6, [process_create] succeeds when fewer than [MAX_PROCESSES]
    processes are live and otherwise fails at its first return; the
    no-free-slot and out-of-memory returns are never taken. *)
Theorem process_create_fails_only_when_full (ops : list op) (nm : list ascii) :
  forallb table_op ops = true →
  ∃ s, run ops initial_os = Some s ∧
       ((process_count s < MAX_PROCESSES ∧
         ∃ pid, (process_create nm s).1 = Created pid) ∨
        (process_count s = MAX_PROCESSES ∧
         process_create nm s = (CreateFailed MaxProcessesReached, s))).
Proof.
  intros Hops.
  destruct (run_mem_inv ops initial_os Hops inv_initial mem_inv_initial)
    as (s & Hrun & (Hwf & Hc & _) & _ & _ & _ & Hcnt).
  exists s. split; [done|].
  pose proof (live_count_bounds (processes s)) as Hb.
  rewrite (wf_processes s Hwf), max_processes_eq in Hb.
  unfold count_ok in Hc.
  destruct (decide (process_count s = MAX_PROCESSES)) as [Hfull|Hnot].
  - right. split; [done|]. unfold process_create.
    destruct (Z.geb_spec (process_count s) MAX_PROCESSES); [done | lia].
  - left. assert (Hlt : process_count s < MAX_PROCESSES)
      by (unfold MAX_PROCESSES in *; lia).
    split; [done|].
    apply process_create_succeeds;
      [apply (wf_processes s Hwf) | apply (wf_memory_map s Hwf) | done | |].
    + destruct (proj1 (live_count_dead_exists (processes s))) as (i & p & Hp & Hd).
      { rewrite (wf_processes s Hwf), max_processes_eq.
        unfold MAX_PROCESSES in *. lia. }
      exists i, p. split; [done|]. by apply is_live_false.
    + apply used_count_free_block.
      rewrite (wf_memory_map s Hwf), num_blocks_eq.
      unfold MAX_PROCESSES in *. lia.
Qed.

Lemma process_create_fails_only_when_full_witness :
  ∃ s, run [OpProcessCreate (chars "a"); OpProcessTerminate 0; OpSchedule]
           initial_os = Some s ∧
       ((process_count s < MAX_PROCESSES ∧
         ∃ pid, (process_create (chars "b") s).1 = Created pid) ∨
        (process_count s = MAX_PROCESSES ∧
         process_create (chars "b") s =
           (CreateFailed MaxProcessesReached, s))).
Proof. apply process_create_fails_only_when_full. reflexivity. Defined.

(** ** Round-robin order *)

Lemma schedule_loop_first_ready fuel e d s :
  0 ≤ current_process s < MAX_PROCESSES →
  1 ≤ e ≤ d → d < MAX_PROCESSES → d - e < Z.of_nat fuel →
  has_state PROCESS_READY (processes s)
    (Z.to_nat ((current_process s + d) mod MAX_PROCESSES)) = true →
  (∀ e', e ≤ e' < d →
     has_state PROCESS_READY (processes s)
       (Z.to_nat ((current_process s + e') mod MAX_PROCESSES)) = false) →
  schedule_loop fuel ((current_process s + e) mod MAX_PROCESSES) s =
    Some (switch_to ((current_process s + d) mod MAX_PROCESSES) s).
Proof.
  intros Hcur. revert e.
  induction fuel as [|fuel IH]; intros e He Hd Hfuel Hready Hskip; simpl; [lia|].
  destruct (Z.eqb_spec ((current_process s + e) mod MAX_PROCESSES)
              (current_process s)) as [Heq|_].
  { exfalso. revert Heq. unfold MAX_PROCESSES in *.
    generalize (current_process s) Hcur. intros c Hc.
    Z.div_mod_to_equations. lia. }
  destruct (decide (e = d)) as [->|Hne].
  - by rewrite Hready.
  - rewrite Hskip by lia.
    rewrite Z.add_mod_idemp_l by done.
    replace (current_process s + e + 1) with (current_process s + (e + 1)) by lia.
    apply IH; [lia | done | lia | done |].
    intros e' He'. apply Hskip. lia.
Qed.

(** X8 — round-robin order.  With a process count other than 0, the
    scheduler switches to the first ready slot met when going round the
    table from the slot after [current_process].  That slot becomes the
    current one and the only running one, and a current process that was
    running is ready afterwards. *)
Theorem process_schedule_round_robin (s : OS) (d : Z) :
  inv s → process_count s ≠ 0 →
  1 ≤ d < MAX_PROCESSES →
  has_state PROCESS_READY (processes s)
    (Z.to_nat ((current_process s + d) mod MAX_PROCESSES)) = true →
  (∀ e, 1 ≤ e < d →
     has_state PROCESS_READY (processes s)
       (Z.to_nat ((current_process s + e) mod MAX_PROCESSES)) = false) →
  let n := (current_process s + d) mod MAX_PROCESSES in
  ∃ s', process_schedule s = Some s' ∧
        current_process s' = n ∧
        has_state PROCESS_RUNNING (processes s') (Z.to_nat n) = true ∧
        (∀ i, has_state PROCESS_RUNNING (processes s') i = true →
              i = Z.to_nat n) ∧
        (has_state PROCESS_RUNNING (processes s)
           (Z.to_nat (current_process s)) = true →
         has_state PROCESS_READY (processes s')
           (Z.to_nat (current_process s)) = true).
Proof.
  intros Hinv Hcount Hd Hready Hskip n.
  assert (Hn : 0 ≤ n < MAX_PROCESSES) by by apply Z.mod_pos_bound.
  pose proof (inv_switch_to n s Hinv Hn Hready) as (Hwf' & _ & _ & Hrun').
  destruct Hinv as (Hwf & _ & Hcur & _).
  exists (switch_to n s).
  assert (Hcurn : current_process (switch_to n s) = n).
  { unfold switch_to.
    by destruct (has_state PROCESS_RUNNING (processes s)
                   (Z.to_nat (current_process s))). }
  split_and!.
  - unfold process_schedule.
    destruct (Z.eqb_spec (process_count s) 0) as [|_]; [done|].
    apply (schedule_loop_first_ready (Z.to_nat MAX_PROCESSES) 1 d s Hcur).
    + lia.
    + apply Hd.
    + change (Z.of_nat (Z.to_nat MAX_PROCESSES)) with 16.
      unfold MAX_PROCESSES in Hd. lia.
    + exact Hready.
    + intros e' He'. apply Hskip. lia.
  - done.
  - unfold switch_to.
    destruct (has_state PROCESS_RUNNING (processes s)
                (Z.to_nat (current_process s))); simpl;
      apply has_state_alter; rewrite ?length_alter, (wf_processes s Hwf),
        max_processes_eq; unfold MAX_PROCESSES in Hn; lia.
  - intros i Hi. apply Hrun' in Hi. rewrite Hcurn in Hi. lia.
  - intros Hr. unfold switch_to. rewrite Hr. simpl.
    assert (Hne : Z.to_nat n ≠ Z.to_nat (current_process s)).
    { intros Heq.
      assert (Hready' : has_state PROCESS_READY (processes s) (Z.to_nat n) = true)
        by exact Hready.
      rewrite Heq in Hready'.
      apply has_state_true in Hready' as (p & Hp & Hst).
      apply has_state_true in Hr as (q & Hq & Hqs). congruence. }
    rewrite has_state_alter_ne by done.
    apply has_state_alter.
    rewrite (wf_processes s Hwf), max_processes_eq.
    unfold MAX_PROCESSES in Hcur. lia.
Qed.

Lemma process_schedule_round_robin_witness :
  let s := (process_create (chars "b")
              (process_create (chars "a") initial_os).2).2 in
  ∃ s', process_schedule s = Some s' ∧ current_process s' = 1.
Proof.
  intros s.
  assert (Hinv : inv s).
  { apply inv_process_create, inv_process_create, inv_initial. }
  assert (Hc : process_count s ≠ 0) by (vm_compute; discriminate).
  assert (Hd : 1 ≤ 1 < MAX_PROCESSES) by (unfold MAX_PROCESSES; lia).
  destruct (process_schedule_round_robin s 1 Hinv Hc Hd eq_refl)
    as (s' & Hs' & Hcur & _).
  { intros e He. lia. }
  exists s'. split; [exact Hs' | exact Hcur].
Defined.

(** X9 — the current slot is never chosen.  When no slot other than
    [current_process] is ready, [process_schedule] returns with the state
    unchanged, whatever the state of the current slot: a ready process in
    the current slot stays ready. *)
Theorem process_schedule_never_selects_current (s : OS) :
  0 ≤ current_process s < MAX_PROCESSES →
  (∀ i, Z.of_nat i ≠ current_process s →
        has_state PROCESS_READY (processes s) i = false) →
  process_schedule s = Some s.
Proof.
  intros Hcur Hnone.
  destruct (process_schedule_total s Hcur) as [s' Hs']. rewrite Hs'.
  unfold process_schedule in Hs'.
  destruct (process_count s =? 0); [done|].
  apply schedule_loop_cases in Hs'
    as [-> | (n & Hn & Hne & Hready & _)];
    [done | | by apply Z.mod_pos_bound].
  rewrite Hnone in Hready; [discriminate | lia].
Qed.

Lemma process_schedule_never_selects_current_witness :
  let s := (process_create (chars "shell") initial_os).2 in
  has_state PROCESS_READY (processes s) 0 = true ∧
  process_schedule s = Some s.
Proof.
  intros s. split; [reflexivity|].
  apply process_schedule_never_selects_current.
  - vm_compute. split; [discriminate | reflexivity].
  - intros i Hi. destruct i as [|i]; [exfalso; apply Hi; reflexivity|].
    apply not_true_iff_false. intros (p & Hp & Hst)%has_state_true.
    change (processes s)
      with (setup_process 0 0 (chars "shell")
              (set_state PROCESS_TERMINATED zero_process)
            :: replicate 15 (set_state PROCESS_TERMINATED zero_process)) in Hp.
    rewrite lookup_cons in Hp. cbv iota in Hp.
    apply lookup_replicate in Hp as [-> _]. discriminate Hst.
Defined.



(** * Further properties of the file table *)

Lemma slot_matches_iff arg s i :
  names_terminated s →
  slot_matches arg (file_table s) i = true ↔
  ∃ f, file_table s !! i = Some f ∧ in_use f = true ∧
       cstring (filename f) = cstring arg.
Proof.
  intros Hterm. rewrite slot_matches_true. split.
  - intros (f & Hf & Hu & Hm). exists f. split_and!; try done.
    apply name_match_iff; [by eapply Hterm | done].
  - intros (f & Hf & Hu & Heq). exists f. split_and!; try done.
    apply name_match_iff; [by eapply Hterm | done].
Qed.

(** The entry that [fs_delete] clears: the lowest-index in-use entry that
    stores the name. *)
Lemma match_scan_Some arg s k :
  length (file_table s) = Z.to_nat MAX_FILES →
  names_terminated s →
  first_index (slot_matches arg (file_table s)) (Z.to_nat MAX_FILES) 0 = Some k ↔
  (∃ f, file_table s !! k = Some f ∧ in_use f = true ∧
        cstring (filename f) = cstring arg) ∧
  ∀ j g, (j < k)%nat → file_table s !! j = Some g → in_use g = true →
         cstring (filename g) ≠ cstring arg.
Proof.
  intros Hlen Hterm. rewrite first_index_Some, (slot_matches_iff _ _ _ Hterm).
  split.
  - intros (Hk & Hm & Hlow). split; [done|].
    intros j g Hj Hg Hu Heq.
    specialize (Hlow j ltac:(lia)). apply not_true_iff_false in Hlow.
    apply Hlow. apply slot_matches_iff; [done|]. eauto.
  - intros [(f & Hf & Hu & Heq) Hlow].
    assert (k < length (file_table s))%nat by (eapply lookup_lt_Some; eauto).
    split_and!; [lia | lia | eauto |].
    intros j Hj. apply not_true_iff_false.
    intros (g & Hg & Hgu & Hgeq)%slot_matches_iff; [|done].
    by apply (Hlow j g ltac:(lia) Hg Hgu).
Qed.

(** X11 — [fs_delete].  In a well-formed state with terminated names: when
    no in-use entry stores the name the call returns [false] and changes
    nothing; otherwise it returns [true] and clears the in-use flag of the
    lowest-index in-use entry that stores the name, leaving that entry's
    name, every other entry, the bitmap and the process table as they
    were. *)
Theorem fs_delete_spec (arg : list ascii) (s : OS) :
  wf s → names_terminated s →
  (¬ name_taken arg (file_table s) → fs_delete arg s = (false, s)) ∧
  (name_taken arg (file_table s) →
   ∃ k f,
     file_table s !! k = Some f ∧ in_use f = true ∧
     cstring (filename f) = cstring arg ∧
     (∀ j g, (j < k)%nat → file_table s !! j = Some g → in_use g = true →
             cstring (filename g) ≠ cstring arg) ∧
     fs_delete arg s =
       (true, set_file_table (λ ft, <[k := set_in_use false f]> ft) s)).
Proof.
  intros Hwf Hterm. pose proof (wf_file_table s Hwf) as Hlen.
  unfold fs_delete.
  destruct (first_index _ _ _) as [k|] eqn:Hscan.
  - apply (match_scan_Some _ _ _ Hlen Hterm) in Hscan
      as [(f & Hf & Hu & Heq) Hlow].
    split.
    + intros Hn. exfalso. apply Hn. by exists k, f.
    + intros _. exists k, f. split_and!; try done.
      f_equal. unfold set_file_table. f_equal.
      apply list_eq. intros j. destruct (decide (k = j)) as [<-|Hne].
      * rewrite list_lookup_alter_eq, Hf. simpl.
        symmetry. apply list_lookup_insert_eq. by eapply lookup_lt_Some.
      * by rewrite list_lookup_alter_ne, list_lookup_insert_ne.
  - apply (match_scan_None _ _ Hlen Hterm) in Hscan. split; [done|].
    intros Ht. by destruct Hscan.
Qed.

Lemma fs_delete_spec_witness :
  fs_delete (chars "a") initial_os = (false, initial_os).
Proof.
  assert (Hwf : wf initial_os)
    by (apply (bool_decide_unpack _); vm_compute; exact I).
  apply (proj1 (fs_delete_spec (chars "a") initial_os Hwf
                  names_terminated_initial)).
  intros (k & f & Hf & Huse & _).
  change (file_table initial_os)
    with (replicate 32 (set_in_use false zero_file)) in Hf.
  apply lookup_replicate in Hf as [-> _]. discriminate.
Defined.

Lemma short_name_stored arg f :
  short_name arg →
  length (filename f) = Z.to_nat MAX_FILENAME_LEN →
  cstring (filename (setup_file arg f)) = cstring arg.
Proof.
  intros Hshort Hlen. rewrite (setup_file_name _ _ Hlen).
  apply take_ge. unfold short_name in Hshort.
  change (Z.to_nat MAX_FILENAME_LEN) with 32%nat in Hshort. lia.
Qed.

(** X12 — create then delete.  After a successful [fs_create] of a name
    that fits the name field, [fs_delete] of the same name returns [true]
    and clears exactly the slot just filled: the in-use flags of the whole
    table are as before the creation and every other entry is unchanged. *)
Theorem fs_create_then_delete (arg : list ascii) (s : OS) :
  wf s → names_terminated s → short_name arg →
  0 ≤ (fs_create arg s).1 →
  let s1 := (fs_create arg s).2 in
  let i := Z.to_nat (fs_create arg s).1 in
  fs_delete arg s1 = (true, set_file_table (alter (set_in_use false) i) s1) ∧
  in_use <$> file_table (fs_delete arg s1).2 = in_use <$> file_table s ∧
  ∀ j, j ≠ i → file_table (fs_delete arg s1).2 !! j = file_table s !! j.
Proof.
  intros Hwf Hterm Hshort Hok s1 i.
  pose proof (wf_fs_create arg s Hwf) as Hwf1.
  pose proof (names_terminated_fs_create arg s Hwf Hterm) as Hterm1.
  fold s1 in Hwf1, Hterm1. subst s1 i.
  destruct (fs_create_cases arg s Hwf Hterm)
    as [Heq | [Heq | (k & f & Hf & Hfu & Hfresh & Heq)]];
    rewrite Heq in *; simpl in *; try lia.
  rewrite Nat2Z.id.
  assert (Hdel : fs_delete arg (set_file_table (alter (setup_file arg) k) s) =
                 (true, set_file_table (alter (set_in_use false) k)
                          (set_file_table (alter (setup_file arg) k) s))).
  { unfold fs_delete.
    replace (first_index _ _ _) with (Some k); [done|]. symmetry.
    apply (match_scan_Some _ _ _ (wf_file_table _ Hwf1) Hterm1). simpl. split.
    - exists (setup_file arg f). rewrite list_lookup_alter_eq, Hf.
      split_and!; try done.
      apply short_name_stored; [done | exact (wf_filename s Hwf _ _ Hf)].
    - intros j g Hj Hg Hgu Hgeq.
      rewrite list_lookup_alter_ne in Hg by lia.
      apply Hfresh. by exists j, g. }
  rewrite Hdel. simpl. split_and!; [done | |].
  - apply list_eq. intros j. rewrite !list_lookup_fmap.
    destruct (decide (k = j)) as [<-|Hne].
    + by rewrite !list_lookup_alter_eq, Hf, <- Hfu.
    + by rewrite !list_lookup_alter_ne.
  - intros j Hj. by rewrite !list_lookup_alter_ne.
Qed.

Lemma fs_create_then_delete_witness :
  let s1 := (fs_create (chars "a") initial_os).2 in
  fs_delete (chars "a") s1 =
    (true, set_file_table (alter (set_in_use false) 0%nat) s1).
Proof.
  intros s1.
  assert (Hwf : wf initial_os)
    by (apply (bool_decide_unpack _); vm_compute; exact I).
  assert (Hshort : short_name (chars "a")) by (vm_compute; lia).
  assert (Hok : 0 ≤ (fs_create (chars "a") initial_os).1)
    by (vm_compute; discriminate).
  exact (proj1 (fs_create_then_delete (chars "a") initial_os Hwf
                  names_terminated_initial Hshort Hok)).
Defined.

Lemma long_name_not_taken arg s :
  names_terminated s → ¬ short_name arg → ¬ name_taken arg (file_table s).
Proof.
  intros Hterm Hlong (k & f & Hf & Hu & Heq). apply Hlong.
  unfold short_name. rewrite <- Heq. by eapply Hterm.
Qed.

(** X13 — names longer than the name field are never found.  For a name
    of 32 characters or more, in a state with terminated names:
    [fs_delete] returns [false] and changes nothing, [fs_create] never
    reports that the file exists, and a file just created under that name
    is not deleted by that name. *)
Theorem long_name_never_found (arg : list ascii) (s : OS) :
  wf s → names_terminated s → ¬ short_name arg →
  fs_delete arg s = (false, s) ∧
  (fs_create arg s).1 ≠ -2 ∧
  fs_delete arg (fs_create arg s).2 = (false, (fs_create arg s).2).
Proof.
  intros Hwf Hterm Hlong.
  assert (Hdel : ∀ t, wf t → names_terminated t → fs_delete arg t = (false, t)).
  { intros t Hwft Htt. unfold fs_delete.
    replace (first_index _ _ _) with (@None nat); [done|]. symmetry.
    apply (match_scan_None _ _ (wf_file_table t Hwft) Htt).
    by apply long_name_not_taken. }
  split_and!.
  - by apply Hdel.
  - destruct (fs_create_cases arg s Hwf Hterm)
      as [-> | [Heq | (k & f & _ & _ & _ & ->)]]; simpl; [done | | lia].
    exfalso. revert Heq. unfold fs_create.
    destruct (first_index (slot_free _) _ _); [|discriminate].
    replace (first_index (slot_matches _ _) _ _) with (@None nat).
    + intros [= Hk]. lia.
    + symmetry. apply (match_scan_None _ _ (wf_file_table s Hwf) Hterm).
      by apply long_name_not_taken.
  - apply Hdel; [by apply wf_fs_create | by apply names_terminated_fs_create].
Qed.

Lemma long_name_never_found_witness :
  let long := chars "aaaaaaaaaabbbbbbbbbbccccccccccdd" in
  fs_delete long (fs_create long initial_os).2 =
    (false, (fs_create long initial_os).2).
Proof.
  intros long.
  assert (Hwf : wf initial_os)
    by (apply (bool_decide_unpack _); vm_compute; exact I).
  assert (Hlong : ¬ short_name long) by (vm_compute; lia).
  exact (proj2 (proj2 (long_name_never_found long initial_os Hwf
                         names_terminated_initial Hlong))).
Defined.

(** X14 — a deleted name is free again.  When names are terminated and
    unique among in-use entries and [fs_delete] returns [true], no in-use
    entry stores the name any more: a second [fs_delete] returns [false]
    and changes nothing, and [fs_create] of the name succeeds. *)
Theorem fs_delete_frees_name (arg : list ascii) (s : OS) :
  wf s → names_terminated s → unique_names s →
  (fs_delete arg s).1 = true →
  let s1 := (fs_delete arg s).2 in
  ¬ name_taken arg (file_table s1) ∧
  fs_delete arg s1 = (false, s1) ∧
  0 ≤ (fs_create arg s1).1.
Proof.
  intros Hwf Hterm Huniq Hdel s1.
  pose proof (wf_fs_delete arg s Hwf) as Hwf1.
  pose proof (names_terminated_fs_delete arg s Hterm) as Hterm1.
  fold s1 in Hwf1, Hterm1.
  assert (Hs1 : ∃ k f, file_table s !! k = Some f ∧ in_use f = true ∧
                       cstring (filename f) = cstring arg ∧
                       file_table s1 = alter (set_in_use false) k (file_table s)).
  { subst s1. revert Hdel. unfold fs_delete.
    destruct (first_index _ _ _) as [k|] eqn:Hscan; [|discriminate].
    intros _.
    apply (match_scan_Some _ _ _ (wf_file_table s Hwf) Hterm) in Hscan
      as [(f & Hf & Hu & Heq) _].
    exists k, f. done. }
  destruct Hs1 as (k & f & Hf & Hu & Heq & Hft).
  assert (Hfree : ¬ name_taken arg (file_table s1)).
  { intros (j & g & Hg & Hgu & Hgeq). rewrite Hft in Hg.
    destruct (decide (k = j)) as [<-|Hne].
    - rewrite list_lookup_alter_eq, Hf in Hg. injection Hg as <-. discriminate.
    - rewrite list_lookup_alter_ne in Hg by done.
      apply Hne. apply (Huniq k j f g); congruence. }
  split_and!; [done | |].
  - unfold fs_delete.
    replace (first_index _ _ _) with (@None nat); [done|]. symmetry.
    by apply (match_scan_None _ _ (wf_file_table s1 Hwf1) Hterm1).
  - destruct (fs_create_cases arg s1 Hwf1 Hterm1)
      as [Hfull | [Hdup | (i & g & _ & _ & _ & ->)]]; simpl; [| |lia].
    + exfalso. revert Hfull. unfold fs_create.
      destruct (first_index (slot_free _) _ _) eqn:Hscan.
      * destruct (first_index (slot_matches _ _) _ _); intros [= ?]; lia.
      * intros _.
        pose proof (proj1 (free_scan_None _ (wf_file_table s1 Hwf1)) Hscan
                      k (set_in_use false f)) as Hall.
        rewrite Hft, list_lookup_alter_eq, Hf in Hall.
        by specialize (Hall eq_refl).
    + exfalso. revert Hdup. unfold fs_create.
      destruct (first_index (slot_free _) _ _); [|discriminate].
      replace (first_index (slot_matches _ _) _ _) with (@None nat).
      * intros [= ?]. lia.
      * symmetry.
        by apply (match_scan_None _ _ (wf_file_table s1 Hwf1) Hterm1).
Qed.

Lemma fs_delete_frees_name_witness :
  let s := (fs_create (chars "a") initial_os).2 in
  fs_delete (chars "a") (fs_delete (chars "a") s).2 =
    (false, (fs_delete (chars "a") s).2).
Proof.
  intros s.
  assert (Hwf0 : wf initial_os)
    by (apply (bool_decide_unpack _); vm_compute; exact I).
  assert (Hwf : wf s) by (apply wf_fs_create, Hwf0).
  assert (Hterm : names_terminated s)
    by (apply names_terminated_fs_create;
        [exact Hwf0 | exact names_terminated_initial]).
  assert (Huniq : unique_names s).
  { apply unique_names_fs_create;
      [exact Hwf0 | exact names_terminated_initial | vm_compute; lia
      | exact unique_names_initial]. }
  exact (proj1 (proj2 (fs_delete_frees_name (chars "a") s Hwf Hterm Huniq
                         eq_refl))).
Defined.

(** X15 — stored names along operation sequences.  Every sequence of core
    operations from the initialised system runs to a state where each
    in-use entry stores a name of at most 31 characters, terminated inside
    its buffer; and when every name passed to [fs_create] fits those 31
    characters, no two in-use entries store the same name. *)
Theorem file_names_reachable (ops : list op) :
  ∃ s, run ops initial_os = Some s ∧
       names_terminated s ∧
       (short_names ops → unique_names s).
Proof.
  destruct (run_names_terminated ops initial_os inv_initial
              names_terminated_initial) as (s & Hrun & _ & Hterm).
  exists s. split_and!; try done.
  intros Hshort.
  destruct (run_unique_names ops initial_os inv_initial
              names_terminated_initial unique_names_initial Hshort)
    as (s' & Hrun' & Huniq).
  rewrite Hrun in Hrun'. by injection Hrun' as <-.
Qed.

Lemma file_names_reachable_witness :
  ∃ s, run [OpFsCreate (chars "a"); OpFsCreate (chars "b");
            OpFsDelete (chars "a"); OpFsCreate (chars "a")] initial_os = Some s ∧
       unique_names s.
Proof.
  destruct (file_names_reachable
              [OpFsCreate (chars "a"); OpFsCreate (chars "b");
               OpFsDelete (chars "a"); OpFsCreate (chars "a")])
    as (s & Hrun & _ & Huniq).
  exists s. split; [exact Hrun|]. apply Huniq.
  intros arg Harg.
  rewrite !elem_of_cons, elem_of_nil in Harg.
  destruct Harg as [H|[H|[H|[H|[]]]]]; try discriminate H;
    injection H as ->; vm_compute; lia.
Defined.

(** * Initialisation *)

Lemma live_count_all_terminated (ps : list Process) :
  live_count (set_state PROCESS_TERMINATED <$> ps) = 0.
Proof.
  induction ps as [|p ps IH]; [done|].
  change (live_count (set_state PROCESS_TERMINATED <$> p :: ps))
    with ((if is_live (set_state PROCESS_TERMINATED p) then 1 else 0) +
          live_count (set_state PROCESS_TERMINATED <$> ps)).
  by rewrite IH.
Qed.

Lemma os_init_tables s :
  wf s →
  os_init s =
    mkOS (replicate (Z.to_nat NUM_BLOCKS) false)
         (set_state PROCESS_TERMINATED <$> processes s)
         0 0
         (set_in_use false <$> file_table s)
         true.
Proof.
  intros (_ & Hp & Hf & _).
  unfold os_init, fs_init, process_init, memory_init, set_system_running,
    set_file_table, set_processes, set_current_process, set_process_count,
    set_memory_map. simpl.
  rewrite (take_ge (processes s)), (drop_ge (processes s)) by lia.
  rewrite (take_ge (file_table s)), (drop_ge (file_table s)) by lia.
  by rewrite !app_nil_r.
Qed.

(** X16 — [os_init] from any contents.  Whatever the tables held before,
    as long as they have the sizes the C types give them, [os_init] leaves
    every block free, every process slot terminated with its other fields
    kept, no file entry in use with the names kept, count 0, current 0 and
    the running flag set; the state satisfies the invariants that the
    operations maintain. *)
Theorem os_init_resets (s : OS) :
  wf s →
  let s0 := os_init s in
  inv s0 ∧ mem_inv s0 ∧ names_terminated s0 ∧ unique_names s0 ∧
  system_running s0 = true ∧ process_count s0 = 0 ∧ current_process s0 = 0 ∧
  memory_map s0 = replicate (Z.to_nat NUM_BLOCKS) false ∧
  processes s0 = set_state PROCESS_TERMINATED <$> processes s ∧
  file_table s0 = set_in_use false <$> file_table s.
Proof.
  intros Hwf s0. subst s0. rewrite (os_init_tables s Hwf).
  destruct Hwf as (Hm & Hp & Hf & Hfp & Hff).
  assert (Hdead : ∀ i p, (set_state PROCESS_TERMINATED <$> processes s) !! i
                           = Some p → state p = PROCESS_TERMINATED).
  { intros i p Hi. rewrite list_lookup_fmap in Hi.
    destruct (processes s !! i); [|done]. by injection Hi as <-. }
  assert (Hunused : ∀ i f, (set_in_use false <$> file_table s) !! i = Some f →
                           in_use f = false).
  { intros i f Hi. rewrite list_lookup_fmap in Hi.
    destruct (file_table s !! i); [|done]. by injection Hi as <-. }
  cbn [memory_map processes current_process process_count file_table
       system_running].
  split_and!; try reflexivity.
  - unfold inv, wf, count_ok, running_is_current.
    cbn [memory_map processes current_process process_count file_table
         system_running].
    split_and!.
    + by rewrite length_replicate.
    + by rewrite length_fmap.
    + by rewrite length_fmap.
    + apply Forall_fmap. eapply Forall_impl; [exact Hfp|]. by intros p.
    + apply Forall_fmap. eapply Forall_impl; [exact Hff|]. by intros f.
    + by rewrite live_count_all_terminated.
    + done.
    + done.
    + intros i (p & Hi & Hst)%has_state_true.
      apply Hdead in Hi. congruence.
  - unfold mem_inv, owns_block, disjoint_blocks, used_owned.
    cbn [memory_map processes current_process process_count file_table
         system_running].
    split_and!.
    + intros i p Hi Hl. apply Hdead in Hi. apply is_live_true in Hl. done.
    + intros i j p q Hi _ Hl. apply Hdead in Hi. apply is_live_true in Hl. done.
    + intros b Hb. apply lookup_replicate in Hb as [? _]. discriminate.
    + rewrite live_count_all_terminated. reflexivity.
  - intros i f Hi Hu. cbn [file_table] in Hi. apply Hunused in Hi. congruence.
  - intros i j f g Hi _ Hu. cbn [file_table] in Hi. apply Hunused in Hi.
    congruence.
Qed.

Lemma os_init_resets_witness :
  let s := (process_create (chars "a") (fs_create (chars "f") initial_os).2).2 in
  inv (os_init s) ∧ process_count (os_init s) = 0.
Proof.
  intros s.
  assert (Hwf : wf s) by (apply (bool_decide_unpack _); vm_compute; exact I).
  destruct (os_init_resets s Hwf) as (Hinv & _ & _ & _ & _ & Hc & _).
  split; [exact Hinv | exact Hc].
Defined.

(** * The shell *)

(** ** Reading a command *)

Lemma read_command_line fuel l rest :
  newline ∉ l → (length l ≤ fuel)%nat →
  read_command fuel (l ++ newline :: rest) = (l, rest).
Proof.
  revert l. induction fuel as [|fuel IH]; intros l Hnl Hlen.
  - destruct l; simpl in *; [done | lia].
  - destruct l as [|c l]; [done|].
    apply not_elem_of_cons in Hnl as [Hc Hnl].
    cbn [read_command app getchar].
    destruct (Ascii.eqb_spec c newline) as [->|_]; [done|].
    rewrite IH; [done | done | simpl in Hlen; lia].
Qed.

Lemma read_command_overlong fuel l c rest :
  newline ∉ l → c ≠ newline → length l = fuel →
  read_command fuel (l ++ c :: rest) = (l, rest).
Proof.
  revert l. induction fuel as [|fuel IH]; intros l Hnl Hc Hlen.
  - destruct l; [|done]. cbn [read_command app getchar].
    by destruct (Ascii.eqb_spec c newline).
  - destruct l as [|d l]; [done|].
    apply not_elem_of_cons in Hnl as [Hd Hnl].
    cbn [read_command app getchar].
    destruct (Ascii.eqb_spec d newline) as [->|_]; [done|].
    rewrite IH; [done | done | done | simpl in Hlen; lia].
Qed.

Lemma read_command_eof fuel :
  read_command fuel [] = (replicate fuel EOF_char, []).
Proof.
  induction fuel as [|fuel IH]; [done|].
  cbn [read_command getchar].
  change (Ascii.eqb EOF_char newline) with false. cbv iota.
  by rewrite IH.
Qed.

Lemma read_command_bounds fuel input :
  (length (read_command fuel input).1 ≤ fuel)%nat ∧
  newline ∉ (read_command fuel input).1.
Proof.
  revert input. induction fuel as [|fuel IH]; intros input.
  - destruct input as [|c input]; cbn [read_command getchar].
    + change (Ascii.eqb EOF_char newline) with false. simpl.
      split; [lia | apply not_elem_of_nil].
    + destruct (Ascii.eqb c newline); simpl;
        (split; [lia | apply not_elem_of_nil]).
  - assert (Hstep : ∀ c rest, c ≠ newline →
              (length (let '(stored, rest') := read_command fuel rest in
                       (c :: stored, rest')).1 ≤ S fuel)%nat ∧
              newline ∉ (let '(stored, rest') := read_command fuel rest in
                         (c :: stored, rest')).1).
    { intros c rest Hc. destruct (IH rest) as [Hl Hn].
      destruct (read_command fuel rest) as [stored rest']. simpl in *.
      split; [lia|]. apply not_elem_of_cons. by split. }
    destruct input as [|c input]; cbn [read_command getchar].
    + change (Ascii.eqb EOF_char newline) with false. cbv iota.
      by apply Hstep.
    + destruct (Ascii.eqb_spec c newline) as [->|Hc].
      * simpl. split; [lia | apply not_elem_of_nil].
      * by apply Hstep.
Qed.

(** X17 — reading a command.  The command read never holds more than 255
    characters and never a newline.  A line of at most 255 characters is
    read whole, its newline consumed and the rest of the input left.  When
    255 characters have been stored and the next character is not a
    newline, that character is consumed and lost.  At the end of the input
    the command is 255 copies of the EOF character. *)
Theorem read_command_spec (input l rest : list ascii) (c : ascii) :
  let n := Z.to_nat (SHELL_BUFFER_SIZE - 1) in
  (length (read_command n input).1 ≤ 255)%nat ∧
  (newline ∉ (read_command n input).1) ∧
  (newline ∉ l → (length l ≤ 255)%nat →
   read_command n (l ++ newline :: rest) = (l, rest)) ∧
  (newline ∉ l → length l = 255%nat → c ≠ newline →
   read_command n (l ++ c :: rest) = (l, rest)) ∧
  read_command n [] = (replicate 255 EOF_char, []).
Proof.
  intros n. subst n. change (Z.to_nat (SHELL_BUFFER_SIZE - 1)) with 255%nat.
  split_and!.
  - apply read_command_bounds.
  - apply read_command_bounds.
  - apply read_command_line.
  - intros Hnl Hlen Hc. by apply read_command_overlong.
  - apply read_command_eof.
Qed.

Lemma read_command_spec_witness :
  read_command (Z.to_nat (SHELL_BUFFER_SIZE - 1))
               (chars "ps" ++ newline :: chars "exit") =
    (chars "ps", chars "exit") ∧
  read_command (Z.to_nat (SHELL_BUFFER_SIZE - 1))
               (replicate 255 "a"%char ++ "b"%char :: chars "c") =
    (replicate 255 "a"%char, chars "c").
Proof.
  destruct (read_command_spec [] (chars "ps") (chars "exit") "b"%char)
    as (_ & _ & Hline & _).
  destruct (read_command_spec [] (replicate 255 "a"%char) (chars "c") "b"%char)
    as (_ & _ & _ & Hlong & _).
  split.
  - apply Hline; [|simpl; lia].
    apply (bool_decide_unpack _). vm_compute. exact I.
  - apply Hlong; [| apply length_replicate | discriminate].
    intros Hin. apply elem_of_replicate in Hin as [H _]. discriminate H.
Defined.

(** ** Invariants of a session *)

Lemma session_inv_exec o s s' :
  table_op o = true → session_inv s → exec o s = Some s' → session_inv s'.
Proof.
  intros Hop (Hinv & Hmem & Hterm) Hexec. unfold session_inv. split_and!.
  - destruct (inv_exec o s Hinv) as (s1 & Hs1 & Hinv1). congruence.
  - by apply (mem_inv_exec o s).
  - apply (names_terminated_exec o s); [apply Hinv | done | done].
Qed.

Lemma session_inv_set_system_running b s :
  session_inv s → session_inv (set_system_running b s).
Proof.
  intros (Hinv & Hmem & Hterm). unfold session_inv. split_and!.
  - apply (inv_frame s); try reflexivity; [apply Hinv | done].
  - by apply (mem_inv_frame s).
  - by apply (names_terminated_frame s).
Qed.

Lemma session_inv_initial : session_inv initial_os.
Proof.
  split_and!;
    [apply inv_initial | apply mem_inv_initial | apply names_terminated_initial].
Qed.







(** ** The [kill] command *)

Lemma is_char_other command i a b :
  is_char command i a = true → a ≠ b → is_char command i b = false.
Proof.
  unfold is_char. intros Ha%Ascii.eqb_eq Hne.
  apply Ascii.eqb_neq. congruence.
Qed.

Lemma first_char command a :
  is_char command 0 a = true →
  (a ≠ "h"%char → is_help command = false) ∧
  (a ≠ "p"%char → is_ps command = false) ∧
  (a ≠ "r"%char → is_run command = false ∧ is_rm command = false) ∧
  (a ≠ "k"%char → is_kill command = false) ∧
  (a ≠ "l"%char → is_ls command = false) ∧
  (a ≠ "t"%char → is_touch command = false) ∧
  (a ≠ "e"%char → is_exit command = false).
Proof.
  intros Ha.
  unfold is_help, is_ps, is_run, is_rm, is_kill, is_ls, is_touch, is_exit.
  split_and!; intros Hne; rewrite (is_char_other _ _ _ _ Ha Hne); done.
Qed.










(** ** The listings *)

Lemma ps_rows_length_from (ps l : list Process) (k : nat) :
  (∀ i p, l !! i = Some p → ps !! (k + i)%nat = Some p) →
  Z.of_nat (length (flat_map (ps_row ps) (seq k (length l)))) = live_count l.
Proof.
  revert k. induction l as [|p l IH]; intros k Hl; [done|].
  cbn [length seq flat_map live_count]. rewrite length_app, Nat2Z.inj_add.
  rewrite (IH (S k)).
  - f_equal. unfold ps_row. rewrite <- (Nat.add_0_r k) at 1.
    rewrite (Hl 0%nat p eq_refl). fold (is_live p). by destruct (is_live p).
  - intros i q Hq. replace (S k + i)%nat with (k + S i)%nat by lia.
    by apply Hl.
Qed.

Lemma ps_rows_elem ps (c : printf_call) :
  c ∈ ps_rows ps ↔
  ∃ i p, (i < Z.to_nat MAX_PROCESSES)%nat ∧ ps !! i = Some p ∧
         state p ≠ PROCESS_TERMINATED ∧
         c = Printf (line "%3d  %-8s  %s")
               [ArgInt (Z.of_nat i); ArgStr (state_str (state p));
                ArgStr (name p)].
Proof.
  unfold ps_rows. rewrite list_elem_of_In, in_flat_map. split.
  - intros (i & Hi & Hc). apply in_seq in Hi. unfold ps_row in Hc.
    destruct (ps !! i) as [p|] eqn:Hp; [|done].
    fold (is_live p) in Hc. destruct (is_live p) eqn:Hl; [|done].
    destruct Hc as [<-|[]]. exists i, p.
    split_and!; [lia | done | by apply is_live_true | done].
  - intros (i & p & Hi & Hp & Hst & ->). exists i. split.
    + apply in_seq. lia.
    + unfold ps_row. rewrite Hp. fold (is_live p).
      rewrite (proj2 (is_live_true p) Hst). by left.
Qed.

(** X21 — the [ps] listing.  [ps] leaves the state unchanged and prints,
    after its two header lines, one row for each slot that is not
    terminated and none for the others; each row carries the slot index,
    the name of the slot's state and the slot's name buffer; with the
    invariant the number of rows is the process count. *)
Theorem shell_ps_listing (command : list ascii) (s : OS) :
  inv s → is_ps command = true →
  shell_process_command command s =
    Some ([Printf (line "PID  STATE     NAME") [];
           Printf (line "---  --------  ----------------") []]
          ++ ps_rows (processes s), s) ∧
  Z.of_nat (length (ps_rows (processes s))) = process_count s ∧
  ∀ c, c ∈ ps_rows (processes s) ↔
       ∃ i p, processes s !! i = Some p ∧ state p ≠ PROCESS_TERMINATED ∧
              c = Printf (line "%3d  %-8s  %s")
                    [ArgInt (Z.of_nat i); ArgStr (state_str (state p));
                     ArgStr (name p)].
Proof.
  intros (Hwf & Hcount & _) Hps.
  assert (Hhelp : is_help command = false).
  { apply (first_char command "p"); [|done]. revert Hps. unfold is_ps.
    by intros [[? _]%andb_true_iff _]%andb_true_iff. }
  split_and!.
  - unfold shell_process_command. by rewrite Hhelp, Hps.
  - rewrite Hcount. unfold ps_rows. rewrite <- (wf_processes s Hwf).
    by apply ps_rows_length_from.
  - intros c. rewrite ps_rows_elem. split.
    + intros (i & p & _ & Hp & Hst & ->). by exists i, p.
    + intros (i & p & Hp & Hst & ->). exists i, p.
      split_and!; try done.
      rewrite <- (wf_processes s Hwf). by eapply lookup_lt_Some.
Qed.

Lemma shell_ps_listing_witness :
  let s := (process_create (chars "a") initial_os).2 in
  Z.of_nat (length (ps_rows (processes s))) = process_count s.
Proof.
  intros s.
  assert (Hinv : inv s) by apply inv_process_create, inv_initial.
  exact (proj1 (proj2 (shell_ps_listing (chars "ps") s Hinv eq_refl))).
Defined.




(** ** Leaving the shell *)

Lemma shell_exit_dispatch command s :
  is_exit command = true →
  shell_process_command command s =
    Some ([Printf (line "Shutting down SimpleOS...") []],
          set_system_running false s).
Proof.
  intros He.
  assert (H0 : is_char command 0 "e" = true).
  { revert He. unfold is_exit. rewrite !andb_true_iff. tauto. }
  destruct (first_char _ _ H0) as (Hh & Hp & Hr & Hk & Hl & Ht & _).
  unfold shell_process_command.
  rewrite Hh, Hp, (proj1 (Hr ltac:(done))), Hk, Hl, Ht,
    (proj2 (Hr ltac:(done))), He by done.
  done.
Qed.

Lemma shell_loop_stopped fuel input s :
  system_running s = false → shell_loop fuel input s = Some ([], input, s).
Proof. intros Hr. destruct fuel; simpl; by rewrite Hr. Qed.

(** X23 — [exit] ends the loop.  When the next input line is an [exit]
    command (at most 255 characters), the shell loop processes it, runs
    the scheduler once more, and returns with [system_running] false; the
    input after that line is left unread. *)
Theorem shell_exit_stops
    (fuel : nat) (command rest : list ascii) (s : OS) :
  session_inv s → system_running s = true →
  is_exit command = true → newline ∉ command →
  (length command ≤ 255)%nat →
  ∃ s', process_schedule (set_system_running false s) = Some s' ∧
        system_running s' = false ∧
        shell_loop (S fuel) (command ++ newline :: rest) s =
          Some ([Printf "SimpleOS> " [];
                 Printf (line "Shutting down SimpleOS...") []], rest, s').
Proof.
  intros Hs Hrun He Hnl Hlen.
  pose proof (session_inv_set_system_running false s Hs) as (Hinv & _).
  destruct (process_schedule_total (set_system_running false s)) as [s' Hs'].
  { apply Hinv. }
  exists s'. split; [done|].
  assert (Hstop : system_running s' = false).
  { by apply process_schedule_slots in Hs' as (_ & _ & _ & _ & ->). }
  split; [done|].
  cbn [shell_loop]. rewrite Hrun. unfold shell_turn.
  change (Z.to_nat (SHELL_BUFFER_SIZE - 1)) with 255%nat.
  rewrite (read_command_line 255 command rest Hnl Hlen).
  rewrite (shell_exit_dispatch _ _ He), Hs'.
  by rewrite (shell_loop_stopped fuel rest s' Hstop).
Qed.

Lemma shell_exit_stops_witness :
  ∃ s', shell_loop 1 (chars "exit" ++ newline :: chars "ps") initial_os =
          Some ([Printf "SimpleOS> " [];
                 Printf (line "Shutting down SimpleOS...") []],
                chars "ps", s').
Proof.
  destruct (shell_exit_stops 0 (chars "exit") (chars "ps") initial_os
              session_inv_initial eq_refl eq_refl)
    as (s' & _ & _ & Hloop).
  - apply (bool_decide_unpack _). vm_compute. exact I.
  - simpl. lia.
  - exists s'. exact Hloop.
Defined.

Lemma eof_command_unknown s :
  shell_process_command (replicate 255 EOF_char) s =
    Some ([Printf (line "Unknown command: %s") [ArgStr (replicate 255 EOF_char)];
           Printf (line "Type 'help' for available commands") []], s).
Proof. reflexivity. Qed.

Lemma shell_loop_eof fuel s :
  session_inv s → system_running s = true → shell_loop fuel [] s = None.
Proof.
  revert s. induction fuel as [|fuel IH]; intros s Hs Hrun; simpl;
    rewrite Hrun; [done|].
  unfold shell_turn. change (Z.to_nat (SHELL_BUFFER_SIZE - 1)) with 255%nat.
  rewrite read_command_eof, eof_command_unknown.
  destruct (process_schedule s) as [s1|] eqn:Hsched; [|done].
  rewrite IH; [done | |].
  - by apply (session_inv_exec OpSchedule s).
  - apply process_schedule_slots in Hsched as (_ & _ & _ & _ & ->). done.
Qed.

(** X24 — the end of the input is not handled.  Once the input is used up
    while [system_running] is still set, the shell loop never ends: every
    turn reads 255 EOF characters, reports an unknown command and
    schedules.  In particular [main] on an empty input never returns. *)
Theorem shell_never_stops_at_eof (fuel : nat) (s : OS) :
  (session_inv s → system_running s = true → shell_loop fuel [] s = None) ∧
  main fuel [] = None.
Proof.
  split; [apply shell_loop_eof|].
  unfold main, shell_run.
  rewrite shell_loop_eof; [done | | reflexivity].
  apply session_inv_initial.
Qed.

Lemma shell_never_stops_at_eof_witness :
  shell_loop 5 [] initial_os = None.
Proof.
  apply (proj1 (shell_never_stops_at_eof 5 initial_os)).
  - exact session_inv_initial.
  - reflexivity.
Defined.
